(** * quantum-svm: AdaBoost ensemble, kernel vectorisation and
      entanglement patterns

    A shallow embedding of [adaboost.py] and of the combinatorial part of
    [quantum_kernels.py], together with the properties stated for them.

    Python integers are [Z]; a numpy floating-point number is the real
    number it denotes, and the floating-point operations are a parameter of
    the model ([Boost.arithmetic]), exact arithmetic being one instance and
    the binary64 arithmetic of numpy another; a raised exception
    is a value of [exn] carried by [result]. *)

From Stdlib Require Import ZArith List String Ascii Bool Lia Sorting.Sorted.
From Stdlib Require Import Sorting.Permutation.
From Stdlib Require Import Reals Lra.
Import ListNotations.

(** ** Python runtime: exceptions, [range], list indexing *)

Module Py.

Inductive exn : Type :=
| ValueError
| IndexError
| TypeError
| RecursionError
| OverflowError.

Inductive result (A : Type) : Type :=
| Ok (a : A)
| Raise (e : exn).

Arguments Ok {A} a.
Arguments Raise {A} e.

Definition bind {A B} (m : result A) (k : A -> result B) : result B :=
  match m with
  | Ok a => k a
  | Raise e => Raise e
  end.

(** The call ends with an exception. *)
Definition raises {A} (r : result A) : Prop := exists e, r = Raise e.

Notation "x <- m ;; k" := (bind m (fun x => k))
  (at level 61, m at next level, right associativity).

(** Run [f] over a list from left to right, stopping at the first raise. *)
Fixpoint mapM {A B} (f : A -> result B) (l : list A) : result (list B) :=
  match l with
  | [] => Ok []
  | x :: t => y <- f x ;; ys <- mapM f t ;; Ok (y :: ys)
  end.

Open Scope Z_scope.

(** [range(start, stop, step)] unrolled: emit [cur] while it is on the near
    side of [stop].  The steps of this program are the literals 1, -1 and 2,
    so the [ValueError] of a zero step does not arise; a zero step gives the
    empty list here. *)
Fixpoint range_iter (fuel : nat) (cur stop step : Z) : list Z :=
  match fuel with
  | O => []
  | S fuel' =>
      if (if 0 <? step then cur <? stop else stop <? cur)
      then cur :: range_iter fuel' (cur + step) stop step
      else []
  end.

Definition range3 (start stop step : Z) : list Z :=
  if step =? 0 then []
  else range_iter (Z.to_nat (Z.abs (stop - start))) start stop step.

Definition range (stop : Z) : list Z := range3 0 stop 1.

(** [l[k]]: negative indices count from the end, anything else out of
    bounds raises [IndexError]. *)
Definition getitem {A} (l : list A) (k : Z) : result A :=
  let n := Z.of_nat (List.length l) in
  let k' := if k <? 0 then k + n else k in
  if (0 <=? k') && (k' <? n)
  then match nth_error l (Z.to_nat k') with
       | Some a => Ok a
       | None => Raise IndexError
       end
  else Raise IndexError.

(** [itertools.combinations(iterable, r)]: the r-length subsequences, in
    lexicographic order of positions. *)
Fixpoint combinations {A} (l : list A) (r : nat) : list (list A) :=
  match r with
  | O => [[]]
  | S r' =>
      match l with
      | [] => []
      | x :: t => map (cons x) (combinations t r') ++ combinations t r
      end
  end.

(** A 2-tuple produced by [combinations(_, 2)]. *)
Definition as_pair {A} (t : list A) : option (A * A) :=
  match t with
  | [a; b] => Some (a, b)
  | _ => None
  end.

Fixpoint pairs_of {A} (ts : list (list A)) : list (A * A) :=
  match ts with
  | [] => []
  | t :: ts' =>
      match as_pair t with
      | Some p => p :: pairs_of ts'
      | None => pairs_of ts'
      end
  end.

End Py.

(** ** [get_entanglement_pattern] *)

Module Entanglement.
Import Py.
Open Scope Z_scope.

Definition pair_swap (p : Z * Z) : Z * Z := (snd p, fst p).

(** The function calls itself ('circular' asks for 'linear', 'sca' asks for
    'circular'); [depth] bounds the nesting of these calls.  The generators
    the Python function returns are modelled by the list of values they
    yield when consumed. *)
Fixpoint get_entanglement_pattern_rec (depth : nat)
    (num_qubits : Z) (entanglement : string) (rep : Z)
    : result (list (Z * Z)) :=
  match depth with
  | O => Raise RecursionError
  | S depth' =>
      if (entanglement =? "full")%string then
        Ok (pairs_of (combinations (range num_qubits) 2))
      else if (entanglement =? "linear")%string then
        Ok (map (fun i => (i, i + 1)) (range (num_qubits - 1)))
      else if (entanglement =? "reverse_linear")%string then
        Ok (map (fun i => (i, i - 1)) (range3 (num_qubits - 1) 0 (-1)))
      else if (entanglement =? "pairwise")%string then
        let even_pattern :=
          map (fun i => (i, i + 1)) (range3 0 (num_qubits - 1) 2) in
        let odd_pattern :=
          map (fun i => (i, i + 1)) (range3 1 (num_qubits - 1) 2) in
        Ok (even_pattern ++ odd_pattern)
      else if (entanglement =? "circular")%string then
        lin <-
          get_entanglement_pattern_rec depth' num_qubits "linear"%string 0 ;;
        Ok ([(num_qubits - 1, 0)] ++ lin)
      else if (entanglement =? "sca")%string then
        circ_pattern <-
          get_entanglement_pattern_rec depth' num_qubits "circular"%string 0 ;;
        pattern <-
          mapM (fun i => getitem circ_pattern ((i - rep) mod num_qubits))
               (range num_qubits) ;;
        if rep mod 2 =? 1
        then Ok (map (fun '(i, j) => (j, i)) pattern)
        else Ok pattern
      else Raise ValueError
  end.

(** 'sca' -> 'circular' -> 'linear' is the deepest chain of calls. *)
Definition get_entanglement_pattern
    (num_qubits : Z) (entanglement : string) (rep : Z)
    : result (list (Z * Z)) :=
  get_entanglement_pattern_rec 3 num_qubits entanglement rep.

(** *** The topology table of the specification

    These definitions follow the words of the specification's table, not
    the code; the theorems below compare the two. *)

(** The qubit indices 0, 1, ..., Q-1. *)
Definition indices (Q : Z) : list Z := map Z.of_nat (seq 0 (Z.to_nat Q)).

(** linear: (0,1),(1,2),...,(Q-2,Q-1). *)
Definition table_linear (Q : Z) : list (Z * Z) :=
  map (fun i => (i, i + 1)) (indices (Q - 1)).

(** reverse_linear: (Q-1,Q-2),(Q-2,Q-3),...,(1,0), the linear sequence read
    backwards with each pair turned around. *)
Definition table_reverse_linear (Q : Z) : list (Z * Z) :=
  rev (map pair_swap (table_linear Q)).

(** full: every pair (i,j) with i<j, in lexicographic order. *)
Definition table_full (Q : Z) : list (Z * Z) :=
  filter (fun p => fst p <? snd p) (list_prod (indices Q) (indices Q)).

(** pairwise: the even-start pairs of the linear sequence, then its
    odd-start pairs. *)
Definition table_pairwise (Q : Z) : list (Z * Z) :=
  filter (fun p => Z.even (fst p)) (table_linear Q)
  ++ filter (fun p => Z.odd (fst p)) (table_linear Q).

(** circular: (Q-1,0) followed by the linear sequence. *)
Definition table_circular (Q : Z) : list (Z * Z) :=
  (Q - 1, 0) :: table_linear Q.

(** Cyclic rotations of a list by [k] positions: to the left the element at
    index [k] comes first, to the right the element at index 0 moves to
    index [k]. *)
Definition rotate_left {A} (k : nat) (l : list A) : list A :=
  skipn k l ++ firstn k l.

Definition rotate_right {A} (k : nat) (l : list A) : list A :=
  skipn (List.length l - k) l ++ firstn (List.length l - k) l.

(** On an odd repetition each pair is turned around. *)
Definition orient (rep : Z) (p : Z * Z) : Z * Z :=
  if Z.odd rep then pair_swap p else p.

(** The 'sca' row as worded: the circular sequence rotated left by [rep]
    positions, pairs turned around on odd [rep]. *)
Definition sca_rotated_left (Q rep : Z) : list (Z * Z) :=
  map (orient rep) (rotate_left (Z.to_nat (rep mod Q)) (table_circular Q)).

(** The same with the rotation to the right. *)
Definition sca_rotated_right (Q rep : Z) : list (Z * Z) :=
  map (orient rep) (rotate_right (Z.to_nat (rep mod Q)) (table_circular Q)).

(** Helpers of the proofs: [upfrom cur n] is cur, cur+1, ..., cur+n-1, the
    closed form of a unit-step range; [before] is the order test of the
    'full' row. *)
Definition upfrom (cur : Z) (n : nat) : list Z :=
  map (fun k => cur + Z.of_nat k) (seq 0 n).

Definition before (p : Z * Z) : bool := fst p <? snd p.

(** The six tags the function knows. *)
Definition topologies : list string :=
  ["full"; "linear"; "reverse_linear"; "pairwise"; "circular"; "sca"]%string.

(** What a two-qubit gate on [Q] qubits needs of a pair. *)
Definition in_range (Q : Z) (p : Z * Z) : Prop :=
  0 <= fst p < Q /\ 0 <= snd p < Q.

Definition distinct (p : Z * Z) : Prop := fst p <> snd p.

(** Lexicographic order on pairs. *)
Definition lex_lt (p q : Z * Z) : Prop :=
  fst p < fst q \/ (fst p = fst q /\ snd p < snd q).

End Entanglement.

(** ** [VectorizeKernel] *)

Module Vectorize.
Import Py.

Section Kernel.

(** The element type of the arrays.  The wrapper moves numbers around and
    never computes with them, so it is kept abstract. *)
Variable float : Type.

(** A numpy array: its shape and its elements in row-major order. *)
Record ndarray : Type := mk_ndarray {
  shape : list nat;
  data : list float
}.

Definition size_of (sh : list nat) : nat := fold_right Nat.mul 1%nat sh.

Definition well_formed (a : ndarray) : Prop :=
  List.length (data a) = size_of (shape a).

Definition ndim (a : ndarray) : nat := List.length (shape a).

(** [a.shape[0]]: a 0-dimensional array has the empty tuple as shape. *)
Definition shape0 (a : ndarray) : result nat :=
  match shape a with
  | [] => Raise IndexError
  | n :: _ => Ok n
  end.

(** [a[i]]: the i-th block along the first axis. *)
Definition row (a : ndarray) (i : nat) : ndarray :=
  let rest := tl (shape a) in
  mk_ndarray rest (firstn (size_of rest) (skipn (i * size_of rest) (data a))).

(** What [for x in a] / [enumerate(a)] yields; iterating over a
    0-dimensional array is a [TypeError]. *)
Definition iterate (a : ndarray) : result (list ndarray) :=
  match shape a with
  | [] => Raise TypeError
  | n :: _ => Ok (map (row a) (seq 0 n))
  end.

(** The scalar kernel passed to the constructor; it may raise. *)
Definition kernel_fn : Type := ndarray -> ndarray -> result float.

(** [VectorizeKernel.__call__].  [np.empty((X.shape[0], Y.shape[0]))] is
    filled entry by entry by the nested loops, row after row; the first
    kernel call that raises ends the call. *)
Definition call (kernel : kernel_fn) (X : ndarray) (Y : option ndarray)
    : result ndarray :=
  let Y := match Y with None => X | Some Y' => Y' end in
  n <- shape0 X ;;
  m <- shape0 Y ;;
  xs <- iterate X ;;
  computed_kernel <-
    mapM (fun x => ys <- iterate Y ;; mapM (fun y => kernel x y) ys) xs ;;
  Ok (mk_ndarray [n; m] (List.concat computed_kernel)).

(** Entry (i,j) of a 2-dimensional array. *)
Definition entry (K : ndarray) (i j : nat) : option float :=
  match shape K with
  | [_; m] => if (j <? m)%nat then nth_error (data K) (i * m + j) else None
  | _ => None
  end.

End Kernel.

Arguments mk_ndarray {float} _ _.
Arguments shape {float} _.
Arguments data {float} _.
Arguments row {float} _ _.
Arguments iterate {float} _.
Arguments shape0 {float} _.
Arguments call {float} _ _ _.
Arguments entry {float} _ _ _.
Arguments ndim {float} _.
Arguments well_formed {float} _.

(** Concrete arrays used in the examples, with integers for the numbers:
    two samples of two features, one sample of three features, and a
    1-dimensional array; the kernel multiplies the leading entries of its two
    arguments (of the flattened arguments, so that it also accepts the
    scalars a 1-dimensional array yields). *)
Definition X_2feat : ndarray Z := mk_ndarray [2; 2]%nat [1; 2; 3; 4]%Z.
Definition Y_3feat : ndarray Z := mk_ndarray [1; 3]%nat [5; 6; 7]%Z.
Definition X_1dim : ndarray Z := mk_ndarray [2]%nat [3; 4]%Z.

Definition first_feature_product : kernel_fn Z :=
  fun x y => Ok (hd 0%Z (data x) * hd 0%Z (data y))%Z.

End Vectorize.

(** ** [AdaBoost] *)

Module Boost.
Import Py.
Open Scope R_scope.

(** A sample matrix has one row per sample; labels and predictions are
    integers, +1 or -1 on well-formed data.  A weak classifier is an opaque
    function from a sample matrix to one prediction per row.

    The arithmetic of [fit] and [predict] is numpy's elementwise arithmetic
    on arrays of one length; the embedding pairs the arrays element by
    element and is meant for such inputs: [y] and every classifier's
    prediction as long as [X]. *)
Definition matrix : Type := list (list R).
Definition labels : Type := list Z.
Definition classifier : Type := matrix -> labels.

Record AdaBoost : Type := mk_AdaBoost {
  weak_classifiers : list classifier;
  n_estimators : Z;
  num_workers : Z;
  alphas : list R;
  selected_classifiers : list classifier
}.

(** [AdaBoost.__init__]; the defaults are n_estimators=50, num_workers=1. *)
Definition init (weak_classifiers : list classifier)
    (n_estimators num_workers : Z) : AdaBoost :=
  mk_AdaBoost weak_classifiers n_estimators num_workers [] [].

(** numpy's floating-point arithmetic.  A float is identified with the real
    number it denotes, and comparing two floats compares those reals;
    infinities and nan are left out (but for the nan of an empty mean,
    below).  What an operation returns is not fixed by the model: binary64
    arithmetic rounds every result, [np.sum] adds pairwise and [np.dot] in
    the order of the linear-algebra library.  The operations are therefore
    the fields of an [arithmetic], a parameter of everything that computes
    with floats, and binary64 is one arithmetic among others.  The literals
    0.5 and 1.0 and the integers this program turns into floats (labels,
    counts of samples) are held exactly by every binary format; the literal
    1e-10 is not, and is read through [literal]. *)
Class arithmetic : Type := {
  fadd : R -> R -> R;
  fsub : R -> R -> R;
  fmul : R -> R -> R;
  fdiv : R -> R -> R;
  np_exp : R -> R;
  np_log : R -> R;
  np_sum : list R -> R;
  np_dot : list R -> list R -> R;
  literal : R -> R
}.

(** The sum and the dot product of real numbers, without rounding. *)
Definition sum (v : list R) : R := fold_right Rplus 0 v.

Definition dot (u v : list R) : R :=
  sum (map (fun uv => fst uv * snd uv) (combine u v)).

(** [w[y != preds]]: the weights of the samples whose prediction differs
    from the label. *)
Fixpoint misclassified (w : list R) (y preds : labels) : list R :=
  match w, y, preds with
  | wi :: w', yi :: y', pi :: preds' =>
      if (yi =? pi)%Z then misclassified w' y' preds'
      else wi :: misclassified w' y' preds'
  | _, _, _ => []
  end.

(** [np.sum(w[y != preds])]. *)
Definition masked_sum {fl : arithmetic} (w : list R) (y preds : labels) : R :=
  np_sum (misclassified w y preds).

(** [np.argmin] on a non-empty array [x :: t]: the index of the first
    occurrence of the minimum, together with that minimum. *)
Fixpoint first_min (x : R) (t : list R) : nat * R :=
  match t with
  | [] => (O, x)
  | x' :: t' =>
      let (i, m) := first_min x' t' in
      if Rle_dec x m then (O, x) else (S i, m)
  end.

(** [np.argmin(errors)]; an empty array is a [ValueError]. *)
Definition argmin (errors : list R) : result nat :=
  match errors with
  | [] => Raise ValueError
  | x :: t => Ok (fst (first_min x t))
  end.

(** [w * np.exp(-alpha * y * predictions)]. *)
Fixpoint reweigh {fl : arithmetic} (alpha : R) (w : list R)
    (y preds : labels) : list R :=
  match w, y, preds with
  | wi :: w', yi :: y', pi :: preds' =>
      fmul wi (np_exp (fmul (fmul (- alpha) (IZR yi)) (IZR pi)))
        :: reweigh alpha w' y' preds'
  | _, _, _ => []
  end.

(** [w / w.sum()]. *)
Definition normalize {fl : arithmetic} (w : list R) : list R :=
  map (fun wi => fdiv wi (np_sum w)) w.

(** How one pass through the body of the loop ends. *)
Inductive round_end : Type :=
| Break
| Completed (w : list R) (alpha : R) (best_clf : classifier).

(** The body of the [for] loop of [fit] on the current weights [w]. *)
Definition boost_round {fl : arithmetic} (weak_classifiers : list classifier)
    (X : matrix) (y : labels) (w : list R) : result round_end :=
  let weak_clf_preds := map (fun clf => clf X) weak_classifiers in
  let errors := map (fun preds => masked_sum w y preds) weak_clf_preds in
  best_clf_idx <- argmin errors ;;
  best_clf <- getitem weak_classifiers (Z.of_nat best_clf_idx) ;;
  error <- getitem errors (Z.of_nat best_clf_idx) ;;
  if Rle_dec 1.0 error then Ok Break
  else
    let alpha :=
      fmul 0.5 (np_log (fdiv (fsub 1 error) (fadd error (literal 1e-10)))) in
    predictions <- getitem weak_clf_preds (Z.of_nat best_clf_idx) ;;
    let w := reweigh alpha w y predictions in
    let w := normalize w in
    Ok (Completed w alpha best_clf).

(** [self.alphas.append(alpha); self.selected_classifiers.append(best_clf)]. *)
Definition append_record (self : AdaBoost) (alpha : R) (best_clf : classifier)
    : AdaBoost :=
  mk_AdaBoost (weak_classifiers self) (n_estimators self) (num_workers self)
    (alphas self ++ [alpha]) (selected_classifiers self ++ [best_clf]).

(** The remaining [rounds] iterations of the loop.  The object is mutated
    in place, so the records appended before an exception stay; the result
    is the object, the weights the loop ended with, and how the call ends:
    normally or with an exception. *)
Fixpoint fit_loop {fl : arithmetic} (rounds : nat) (self : AdaBoost)
    (X : matrix) (y : labels) (w : list R)
    : AdaBoost * list R * result unit :=
  match rounds with
  | O => (self, w, Ok tt)
  | S rounds' =>
      match boost_round (weak_classifiers self) X y w with
      | Raise e => (self, w, Raise e)
      | Ok Break => (self, w, Ok tt)
      | Ok (Completed w' alpha best_clf) =>
          fit_loop rounds' (append_record self alpha best_clf) X y w'
      end
  end.

(** [np.ones(n_samples) / n_samples]. *)
Definition initial_weights {fl : arithmetic} (X : matrix) : list R :=
  let n_samples := List.length X in
  map (fun one => fdiv one (INR n_samples)) (repeat 1 n_samples).

(** [AdaBoost.fit]; [range(n)] of a negative [n] is empty. *)
Definition fit_run {fl : arithmetic} (self : AdaBoost) (X : matrix)
    (y : labels) : AdaBoost * list R * result unit :=
  fit_loop (Z.to_nat (n_estimators self)) self X y (initial_weights X).

Definition fit {fl : arithmetic} (self : AdaBoost) (X : matrix) (y : labels)
    : AdaBoost * result unit :=
  let '(self', _, r) := fit_run self X y in (self', r).

(** The array [predict] returns: 1-dimensional, or 0-dimensional when
    numpy's [dot] gave a scalar. *)
Inductive prediction : Type :=
| Scalar (v : Z)
| Vector (v : list Z).

(** Column [j] of the matrix [clf_preds], its integers turned into
    floats. *)
Definition column (clf_preds : list labels) (j : nat) : list R :=
  map (fun p => IZR (nth j p 0%Z)) clf_preds.

(** Entry [j] of [np.dot(alphas, clf_preds)]: the alphas against column
    [j]. *)
Definition dot_column {fl : arithmetic} (alphas : list R)
    (clf_preds : list labels) (j : nat) : R :=
  np_dot alphas (column clf_preds j).

(** [np.where(score > 0, 1, -1)] at one entry. *)
Definition vote (score : R) : Z := if Rlt_dec 0 score then 1%Z else (-1)%Z.

(** [np.where(np.dot(alphas, clf_preds) > 0, 1, -1)].  With no classifier
    [clf_preds] is the empty 1-dimensional array and the dot product of two
    empty vectors is the scalar 0.0; otherwise [clf_preds] is a matrix with
    one row per classifier (rows of unequal length, or a row count other than
    the number of alphas, are a [ValueError]). *)
Definition weighted_vote {fl : arithmetic} (alphas : list R)
    (clf_preds : list labels) : result prediction :=
  match clf_preds with
  | [] =>
      match alphas with
      | [] => Ok (Scalar (vote 0))
      | _ :: _ => Raise ValueError
      end
  | p :: _ =>
      if (List.length alphas =? List.length clf_preds)%nat
         && forallb (fun q => (List.length q =? List.length p)%nat) clf_preds
      then Ok (Vector (map (fun j => vote (dot_column alphas clf_preds j))
                           (seq 0 (List.length p))))
      else Raise ValueError
  end.

(** [AdaBoost.predict].  With [num_workers] other than 1 the classifiers run
    in a thread pool whose [map] returns the results in submission order;
    a pool of fewer than one worker is a [ValueError]. *)
Definition predict {fl : arithmetic} (self : AdaBoost) (X : matrix)
    : result prediction :=
  clf_preds <-
    (if (num_workers self =? 1)%Z
     then Ok (map (fun clf => clf X) (selected_classifiers self))
     else if (num_workers self <=? 0)%Z then Raise ValueError
     else Ok (map (fun clf => clf X) (selected_classifiers self))) ;;
  weighted_vote (alphas self) clf_preds.

(** *** The specification's wording *)

(** The weighted errors of the candidates, as the arithmetic computes
    them, and their minimum. *)
Definition weighted_errors {fl : arithmetic}
    (weak_classifiers : list classifier)
    (X : matrix) (y : labels) (w : list R) : list R :=
  map (fun clf => masked_sum w y (clf X)) weak_classifiers.

Fixpoint list_min (x : R) (t : list R) : R :=
  match t with
  | [] => x
  | x' :: t' => Rmin x (list_min x' t')
  end.

Definition min_weighted_error {fl : arithmetic}
    (weak_classifiers : list classifier)
    (X : matrix) (y : labels) (w : list R) : option R :=
  match weighted_errors weak_classifiers X y w with
  | [] => None
  | x :: t => Some (list_min x t)
  end.

(** alpha = 0.5 * ln((1 - error) / (error + epsilon)), epsilon = 1e-10, in
    real numbers. *)
Definition alpha_of (error : R) : R :=
  1 / 2 * ln ((1 - error) / (error + / 10 ^ 10)).

(** The alpha-weighted sum of the selected classifiers' predictions for
    sample [j]: the dot product, as the arithmetic computes it, of the
    alphas with what the classifiers answer for that sample. *)
Definition ensemble_score {fl : arithmetic} (self : AdaBoost) (X : matrix)
    (j : nat) : R :=
  np_dot (alphas self)
         (map (fun clf => IZR (nth j (clf X) 0%Z)) (selected_classifiers self)).

(** The same sum in real numbers. *)
Definition weighted_sum (self : AdaBoost) (X : matrix) (j : nat) : R :=
  sum (map (fun rec => snd rec * IZR (nth j (fst rec X) 0%Z))
           (combine (selected_classifiers self) (alphas self))).

(** A weight vector as the data model has it: non-negative, summing to 1. *)
Definition distribution (w : list R) : Prop :=
  Forall (fun wi => 0 <= wi) w /\ sum w = 1.

(** Well-formed training data for a set of candidates: at least one sample,
    a label per sample, and a prediction per sample from every candidate. *)
Definition valid_data (weak_classifiers : list classifier)
    (X : matrix) (y : labels) : Prop :=
  (1 <= List.length X)%nat /\
  List.length y = List.length X /\
  Forall (fun clf => List.length (clf X) = List.length X) weak_classifiers.

(** The states an ensemble object goes through: construction, then any
    number of calls of [fit] and [predict] ([predict] and [score] only read
    the object). *)
Inductive reachable {fl : arithmetic} : AdaBoost -> Prop :=
| reach_init wcs n workers : reachable (init wcs n workers)
| reach_fit self X y : reachable self -> reachable (fst (fit self X y)).

(** Concrete data for the examples: one sample labelled +1, a candidate
    that always answers +1 and one that always answers -1. *)
Definition always (v : Z) : classifier := fun X => map (fun _ => v) X.
Definition one_sample : matrix := [[0]].
Definition one_label : labels := [1%Z].

(** *** [score], [__str__], [__repr__] *)

(** A numpy float that may be "not a number". *)
Inductive float : Type :=
| Finite (r : R)
| NaN.

(** [preds == y], elementwise.  A 0-dimensional [preds] and an array of
    length one are broadcast against the other operand; arrays of unequal
    lengths cannot be compared (a [ValueError] since numpy 1.25). *)
Definition equal_mask (preds : prediction) (y : labels) : result (list bool) :=
  match preds with
  | Scalar v => Ok (map (fun yi => (v =? yi)%Z) y)
  | Vector out =>
      if (List.length out =? List.length y)%nat
      then Ok (map (fun py => (fst py =? snd py)%Z) (combine out y))
      else match out, y with
           | [v], _ => Ok (map (fun yi => (v =? yi)%Z) y)
           | _, [yi] => Ok (map (fun v => (v =? yi)%Z) out)
           | _, _ => Raise ValueError
           end
  end.

Definition count_true (mask : list bool) : nat :=
  List.length (filter (fun b => b) mask).

(** [np.mean] of a boolean array; the mean of an empty array is nan (with
    a warning, not an exception). *)
Definition mean {fl : arithmetic} (mask : list bool) : float :=
  match mask with
  | [] => NaN
  | _ :: _ => Finite (fdiv (INR (count_true mask)) (INR (List.length mask)))
  end.

(** [AdaBoost.score]. *)
Definition score {fl : arithmetic} (self : AdaBoost) (X : matrix) (y : labels)
    : result float :=
  preds <- predict self X ;;
  mask <- equal_mask preds y ;;
  Ok (mean mask).

Open Scope string_scope.

(** [str(n)] for an integer: decimal digits, most significant first, a
    minus sign before a negative number. *)
Definition digit_char (d : Z) : ascii := ascii_of_nat (48 + Z.to_nat d).

Fixpoint digits (fuel : nat) (n : Z) : string :=
  match fuel with
  | O => ""
  | S fuel' =>
      if (n <? 10)%Z then String (digit_char n) ""
      else digits fuel' (n / 10) ++ String (digit_char (n mod 10)) ""
  end.

Definition str_int (n : Z) : string :=
  if (n <? 0)%Z then "-" ++ digits (S (Z.to_nat (- n))) (- n)
  else digits (S (Z.to_nat n)) n.

(** [s[:k]] for a non-negative [k], and [s[:-2]]. *)
Fixpoint take (k : nat) (s : string) : string :=
  match k, s with
  | S k', String c s' => String c (take k' s')
  | _, _ => ""
  end.

Definition drop_last_two (s : string) : string :=
  take (String.length s - 2) s.

(** [AdaBoost.__str__]; the class name is that of [AdaBoost] itself. *)
Definition to_str (self : AdaBoost) : string :=
  "AdaBoost" ++ "(n_estimators=" ++ str_int (n_estimators self) ++ ")".

(** [AdaBoost.__repr__].  [str_of] is Python's [str] on the candidate
    objects, whatever they are. *)
Definition to_repr (str_of : classifier -> string) (self : AdaBoost) : string :=
  let repr_str := to_str self in
  let clf_limit := 5%nat in
  let clf_str :=
    "[" ++ String.concat ", " (map str_of (firstn clf_limit (weak_classifiers self)))
        ++ (if (clf_limit <? List.length (weak_classifiers self))%nat
            then ", ..." else "")
        ++ "]" in
  drop_last_two repr_str ++ ", weak_classifiers=" ++ clf_str ++ ")".

Close Scope string_scope.

(** Labels as the data model has them. *)
Definition binary (y : labels) : Prop :=
  Forall (fun v => v = 1%Z \/ v = (-1)%Z) y.

(** *** Arithmetic without rounding

    The arithmetic of the real numbers: every operation returns the exact
    result.  Where a statement names no arithmetic it is about this one;
    it then describes the values the program computes up to the rounding of
    binary64. *)
#[global] Instance exact : arithmetic := {|
  fadd := Rplus;
  fsub := Rminus;
  fmul := Rmult;
  fdiv := Rdiv;
  np_exp := exp;
  np_log := ln;
  np_sum := sum;
  np_dot := dot;
  literal := fun x => x
|}.

End Boost.

(** ** The feature maps built gate by gate *)

Module FeatureMaps.
Import Py Entanglement.
Open Scope Z_scope.

(** An angle of a rotation gate: an element of a [ParameterVector], or a
    product with a number or with another angle, as the arithmetic on
    parameters builds it. *)
Inductive angle : Type :=
| Param (k : Z)
| Scale (c : Z) (a : angle)
| Prod (a b : angle).

(** The instructions the feature maps append. *)
Inductive gate : Type :=
| H (q : Z)
| RX (a : angle) (q : Z)
| RY (a : angle) (q : Z)
| RZ (a : angle) (q : Z)
| RZZ (a : angle) (q1 q2 : Z)
| CX (q1 q2 : Z)
| Barrier.

(** A [QuantumCircuit]: its number of qubits and its instructions in the
    order they were appended. *)
Record circuit : Type := mk_circuit {
  num_qubits : Z;
  gates : list gate
}.

(** Besides Python's own exceptions the circuit library raises its
    [CircuitError]. *)
Inductive error : Type :=
| PyError (e : exn)
| CircuitError.

Inductive built (A : Type) : Type :=
| Done (a : A)
| Failed (e : error).

Arguments Done {A} a.
Arguments Failed {A} e.

Definition and_then {A B} (m : built A) (k : A -> built B) : built B :=
  match m with
  | Done a => k a
  | Failed e => Failed e
  end.

Notation "x <~ m ;; k" := (and_then m (fun x => k))
  (at level 61, m at next level, right associativity).

Definition lift {A} (r : result A) : built A :=
  match r with
  | Ok a => Done a
  | Raise e => Failed (PyError e)
  end.

(** [QuantumCircuit(n)]: a register of negative size is refused. *)
Definition QuantumCircuit (n : Z) : built circuit :=
  if n <? 0 then Failed CircuitError else Done (mk_circuit n []).

(** [ParameterVector('x', length)]: the vector is known by its length.  A
    negative length is refused with an [OverflowError], the length being
    kept as an unsigned machine integer (releases of the library before
    that built an empty vector instead). *)
Definition ParameterVector (length : Z) : built Z :=
  if length <? 0 then Failed (PyError OverflowError) else Done length.

(** [params[i]] on a vector of [length] elements: indexing as on a list. *)
Definition param_at (length i : Z) : built angle :=
  lift (getitem (map Param (range length)) i).

(** A qubit argument is an index into the register (negative indices count
    from the end); the arguments of one instruction must differ. *)
Definition qubit_ok (n q : Z) : bool := (- n <=? q) && (q <? n).

Definition same_qubit (n q1 q2 : Z) : bool := (q1 mod n =? q2 mod n).

Definition gate_ok (n : Z) (g : gate) : bool :=
  match g with
  | H q | RX _ q | RY _ q | RZ _ q => qubit_ok n q
  | RZZ _ q1 q2 | CX q1 q2 =>
      qubit_ok n q1 && qubit_ok n q2 && negb (same_qubit n q1 q2)
  | Barrier => true
  end.

(** Appending one instruction. *)
Definition append (g : gate) (c : circuit) : built circuit :=
  if gate_ok (num_qubits c) g
  then Done (mk_circuit (num_qubits c) (gates c ++ [g]))
  else Failed CircuitError.

(** [for a in l: body], threading the circuit. *)
Fixpoint for_each {A} (l : list A) (body : A -> circuit -> built circuit)
    (c : circuit) : built circuit :=
  match l with
  | [] => Done c
  | a :: l' => c' <~ body a c ;; for_each l' body c'
  end.

(** [feature_map.h(range(n))]: one Hadamard per qubit.  A gate applied to
    an empty collection of qubits is refused (broadcasting finds an empty
    argument). *)
Definition h_all (n : Z) (c : circuit) : built circuit :=
  match range n with
  | [] => Failed CircuitError
  | q :: qs => for_each (q :: qs) (fun q => append (H q)) c
  end.

(** [iqp_feature_map]. *)
Definition iqp_feature_map (num_features reps : Z) (entanglement : string)
    : built circuit :=
  feature_map <~ QuantumCircuit num_features ;;
  params <~ ParameterVector num_features ;;
  for_each (range reps) (fun rep feature_map =>
    feature_map <~ h_all num_features feature_map ;;
    feature_map <~
      for_each (range num_features) (fun i feature_map =>
        p <~ param_at params i ;;
        append (RZ (Scale 2 p) i) feature_map) feature_map ;;
    pattern <~ lift (get_entanglement_pattern num_features entanglement rep) ;;
    feature_map <~
      for_each pattern (fun '(i, j) feature_map =>
        pi <~ param_at params i ;;
        pj <~ param_at params j ;;
        append (RZZ (Prod (Scale 2 pi) pj) i j) feature_map) feature_map ;;
    h_all num_features feature_map) feature_map.

(** [polynomial_feature_map]. *)
Definition polynomial_feature_map (num_features qubits_per_feature : Z)
    : built circuit :=
  feature_map <~ QuantumCircuit (num_features * qubits_per_feature) ;;
  params <~ ParameterVector num_features ;;
  for_each (range num_features) (fun k feature_map =>
    for_each (range qubits_per_feature) (fun i feature_map =>
      p <~ param_at params k ;;
      append (RY p (k * qubits_per_feature + i)) feature_map) feature_map)
    feature_map.

(** [qaoa_inspired_feature_map]; [//] is floor division. *)
Definition qaoa_inspired_feature_map (num_features reps : Z)
    (entanglement : string) : built circuit :=
  let num_qubits := num_features / 2 in
  feature_map <~ QuantumCircuit num_qubits ;;
  params <~ ParameterVector (num_qubits * 2) ;;
  feature_map <~ h_all num_qubits feature_map ;;
  for_each (range reps) (fun rep feature_map =>
    feature_map <~
      for_each (range num_qubits) (fun i feature_map =>
        p <~ param_at params i ;;
        append (RX (Scale 2 p) i) feature_map) feature_map ;;
    feature_map <~
      for_each (range num_qubits) (fun i feature_map =>
        p <~ param_at params (num_qubits + i) ;;
        append (RZ (Scale 2 p) i) feature_map) feature_map ;;
    pattern <~ lift (get_entanglement_pattern num_qubits entanglement rep) ;;
    feature_map <~
      for_each pattern (fun '(i, j) feature_map =>
        pi <~ param_at params i ;;
        pj <~ param_at params j ;;
        append (RZZ (Prod pi pj) i j) feature_map) feature_map ;;
    for_each pattern (fun '(i, j) feature_map =>
      pi <~ param_at params (num_qubits + i) ;;
      pj <~ param_at params (num_qubits + j) ;;
      append (RZZ (Prod pi pj) i j) feature_map) feature_map) feature_map.

(** [data_reuploading_feature_map]; the three gate names are looked up
    with [getattr]. *)
Definition data_reuploading_feature_map (num_features reps : Z)
    (entanglement : string) : built circuit :=
  feature_map <~ QuantumCircuit num_features ;;
  params <~ ParameterVector (num_features * reps) ;;
  feature_map <~ h_all num_features feature_map ;;
  for_each (range reps) (fun d feature_map =>
    pattern <~ lift (get_entanglement_pattern num_features entanglement d) ;;
    for_each [RX; RY; RZ] (fun gate feature_map =>
      feature_map <~
        for_each (range num_features) (fun i feature_map =>
          p <~ param_at params i ;;
          append (gate p i) feature_map) feature_map ;;
      feature_map <~
        for_each pattern (fun '(i, j) feature_map =>
          append (CX i j) feature_map) feature_map ;;
      append Barrier feature_map) feature_map) feature_map.

(** The parameters an angle and an instruction mention. *)
Fixpoint angle_params (a : angle) : list Z :=
  match a with
  | Param k => [k]
  | Scale _ a' => angle_params a'
  | Prod a1 a2 => angle_params a1 ++ angle_params a2
  end.

Definition gate_params (g : gate) : list Z :=
  match g with
  | RX a _ | RY a _ | RZ a _ | RZZ a _ _ => angle_params a
  | H _ | CX _ _ | Barrier => []
  end.

Definition circuit_params (c : circuit) : list Z :=
  flat_map gate_params (gates c).

(** The circuit with more instructions at its end. *)
Definition extend (c : circuit) (gs : list gate) : circuit :=
  mk_circuit (num_qubits c) (gates c ++ gs).

(** One repetition of the IQP map on [n] qubits with entangling pairs
    [pattern], as a list of instructions. *)
Definition iqp_layer (n : Z) (pattern : list (Z * Z)) : list gate :=
  map H (range n)
  ++ map (fun i => RZ (Scale 2 (Param i)) i) (range n)
  ++ map (fun p => RZZ (Prod (Scale 2 (Param (fst p))) (Param (snd p)))
                       (fst p) (snd p)) pattern
  ++ map H (range n).

(** One repetition of the data re-uploading map. *)
Definition reupload_block (n : Z) (pattern : list (Z * Z))
    (rot : angle -> Z -> gate) : list gate :=
  map (fun i => rot (Param i) i) (range n)
  ++ map (fun p => CX (fst p) (snd p)) pattern
  ++ [Barrier].

Definition reupload_layer (n : Z) (pattern : list (Z * Z)) : list gate :=
  reupload_block n pattern RX ++ reupload_block n pattern RY
  ++ reupload_block n pattern RZ.

(** One repetition of the QAOA-inspired map. *)
Definition qaoa_layer (n : Z) (pattern : list (Z * Z)) : list gate :=
  map (fun i => RX (Scale 2 (Param i)) i) (range n)
  ++ map (fun i => RZ (Scale 2 (Param (n + i))) i) (range n)
  ++ map (fun p => RZZ (Prod (Param (fst p)) (Param (snd p)))
                       (fst p) (snd p)) pattern
  ++ map (fun p => RZZ (Prod (Param (n + fst p)) (Param (n + snd p)))
                       (fst p) (snd p)) pattern.

(** The pairs [get_entanglement_pattern] yields, none when it raises, and
    how many they are on a known tag. *)
Definition pattern_of (Q : Z) (tag : string) (rep : Z) : list (Z * Z) :=
  match get_entanglement_pattern Q tag rep with
  | Ok l => l
  | Raise _ => []
  end.

Definition pattern_size (Q : Z) (tag : string) : Z :=
  if (tag =? "full")%string then Q * (Q - 1) / 2
  else if (tag =? "circular")%string || (tag =? "sca")%string then Q
  else Q - 1.

End FeatureMaps.

(** * Properties *)

Module PyFacts.
Import Py.
Open Scope Z_scope.

Lemma getitem_in_range {A} (l : list A) (k : Z) (d : A) :
  0 <= k < Z.of_nat (List.length l) ->
  getitem l k = Ok (nth (Z.to_nat k) l d).
Proof.
  intros H. unfold getitem.
  destruct (Z.ltb_spec k 0); [lia|].
  destruct (Z.leb_spec 0 k); [|lia].
  destruct (Z.ltb_spec k (Z.of_nat (List.length l))); [|lia]. simpl.
  destruct (nth_error l (Z.to_nat k)) eqn:E.
  - now rewrite (nth_error_nth _ _ d E).
  - apply nth_error_None in E. lia.
Qed.

Lemma mapM_all_ok {A B} (f : A -> result B) (g : A -> B) (l : list A) :
  (forall a, In a l -> f a = Ok (g a)) -> mapM f l = Ok (map g l).
Proof.
  induction l as [|a l IH]; intros H; [reflexivity|].
  simpl. rewrite (H a) by now left. simpl.
  rewrite IH by (intros; apply H; now right). reflexivity.
Qed.

Lemma mapM_map {A B C} (f : B -> result C) (h : A -> B) (l : list A) :
  mapM f (map h l) = mapM (fun a => f (h a)) l.
Proof.
  induction l as [|a l IH]; [reflexivity|]. simpl. now rewrite IH.
Qed.

End PyFacts.

Module EntanglementFacts.
Import Py PyFacts Entanglement.
Open Scope Z_scope.

Example linear_4 :
  get_entanglement_pattern 4 "linear"%string 0 = Ok [(0,1); (1,2); (2,3)].
Proof. reflexivity. Qed.

Example circular_4 :
  get_entanglement_pattern 4 "circular"%string 0
  = Ok [(3,0); (0,1); (1,2); (2,3)].
Proof. reflexivity. Qed.

Example full_4 :
  get_entanglement_pattern 4 "full"%string 0
  = Ok [(0,1); (0,2); (0,3); (1,2); (1,3); (2,3)].
Proof. reflexivity. Qed.

Example reverse_linear_4 :
  get_entanglement_pattern 4 "reverse_linear"%string 0
  = Ok [(3,2); (2,1); (1,0)].
Proof. reflexivity. Qed.

Example pairwise_6 :
  get_entanglement_pattern 6 "pairwise"%string 0
  = Ok [(0,1); (2,3); (4,5); (1,2); (3,4)].
Proof. reflexivity. Qed.

Example sca_5_1 :
  get_entanglement_pattern 5 "sca"%string 1
  = Ok [(4,3); (0,4); (1,0); (2,1); (3,2)].
Proof. reflexivity. Qed.

Example unknown_tag :
  get_entanglement_pattern 4 "ring"%string 0 = Raise ValueError.
Proof. reflexivity. Qed.

(** *** [range] in closed form *)

Lemma upfrom_S cur n : upfrom cur (S n) = cur :: upfrom (cur + 1) n.
Proof.
  unfold upfrom. simpl. f_equal; [lia|].
  rewrite <- seq_shift, map_map. apply map_ext. intros k. lia.
Qed.

Lemma upfrom_indices n : upfrom 0 (Z.to_nat n) = indices n.
Proof. unfold upfrom, indices. apply map_ext. intros; lia. Qed.

Lemma range_iter_up fuel : forall cur stop,
  (Z.to_nat (stop - cur) <= fuel)%nat ->
  range_iter fuel cur stop 1 = upfrom cur (Z.to_nat (stop - cur)).
Proof.
  induction fuel as [|fuel IH]; intros cur stop Hf.
  - replace (Z.to_nat (stop - cur)) with O by lia. reflexivity.
  - simpl. destruct (Z.ltb_spec cur stop) as [Hlt|Hge].
    + replace (Z.to_nat (stop - cur)) with (S (Z.to_nat (stop - (cur + 1))))
        by lia.
      rewrite upfrom_S. f_equal. apply IH. lia.
    + replace (Z.to_nat (stop - cur)) with O by lia. reflexivity.
Qed.

Lemma range_indices n : range n = indices n.
Proof.
  unfold range, range3. simpl. rewrite range_iter_up by lia.
  rewrite Z.sub_0_r. apply upfrom_indices.
Qed.

(** With step 2 the range keeps every second element of the unit-step
    range that starts at the same place. *)
Lemma range_iter_step2 fuel : forall cur stop,
  (Z.to_nat (stop - cur) <= fuel)%nat ->
  range_iter fuel cur stop 2
  = filter (fun i => Z.even (i - cur)) (upfrom cur (Z.to_nat (stop - cur))).
Proof.
  induction fuel as [|fuel IH]; intros cur stop Hf.
  - replace (Z.to_nat (stop - cur)) with O by lia. reflexivity.
  - simpl. destruct (Z.ltb_spec cur stop) as [Hlt|Hge].
    + destruct (Z.eq_dec stop (cur + 1)) as [->|Hne].
      * replace (Z.to_nat (cur + 1 - cur)) with 1%nat by lia.
        cbn [upfrom seq map filter]. rewrite Z.add_0_r, Z.sub_diag. simpl.
        destruct fuel; simpl; [reflexivity|].
        destruct (Z.ltb_spec (cur + 2) (cur + 1)); [lia|reflexivity].
      * replace (Z.to_nat (stop - cur))
          with (S (S (Z.to_nat (stop - (cur + 2))))) by lia.
        rewrite !upfrom_S. cbn [filter].
        rewrite Z.sub_diag. cbn [Z.even].
        replace (cur + 1 - cur) with 1 by lia. cbn [Z.even].
        f_equal. rewrite IH by lia.
        replace (cur + 1 + 1) with (cur + 2) by lia.
        apply filter_ext. intros i.
        replace (i - cur) with (i - (cur + 2) + 2) by lia.
        now rewrite Z.even_add_even by (exists 1; lia).
    + replace (Z.to_nat (stop - cur)) with O by lia. reflexivity.
Qed.

(** Counting down to zero. *)
Lemma range_iter_down fuel : forall cur,
  (Z.to_nat cur <= fuel)%nat ->
  range_iter fuel cur 0 (-1) = rev (upfrom 1 (Z.to_nat cur)).
Proof.
  induction fuel as [|fuel IH]; intros cur Hf.
  - replace (Z.to_nat cur) with O by lia. reflexivity.
  - simpl. destruct (Z.ltb_spec 0 cur) as [Hlt|Hge].
    + replace (cur + -1) with (cur - 1) by lia. rewrite IH by lia.
      replace (Z.to_nat cur) with (S (Z.to_nat (cur - 1))) by lia.
      unfold upfrom. rewrite seq_S, map_app, rev_app_distr.
      cbn [map rev app Nat.add]. f_equal. lia.
    + replace (Z.to_nat cur) with O by lia. reflexivity.
Qed.

(** *** The five fixed topologies against the table *)

Lemma filter_map_comm {A B} (g : B -> bool) (f : A -> B) (l : list A) :
  filter g (map f l) = map f (filter (fun a => g (f a)) l).
Proof.
  induction l as [|a l IH]; simpl; [reflexivity|].
  destruct (g (f a)); simpl; now rewrite IH.
Qed.

Lemma linear_code_table Q :
  map (fun i => (i, i + 1)) (range (Q - 1)) = table_linear Q.
Proof. unfold table_linear. now rewrite range_indices. Qed.

Lemma reverse_linear_code_table Q :
  map (fun i => (i, i - 1)) (range3 (Q - 1) 0 (-1)) = table_reverse_linear Q.
Proof.
  unfold range3, table_reverse_linear, table_linear, indices. simpl.
  rewrite range_iter_down by lia.
  rewrite map_rev. f_equal. unfold upfrom.
  rewrite !map_map. apply map_ext. intros k. unfold pair_swap.
  cbn [fst snd]. f_equal; lia.
Qed.

Lemma even_start_code_table Q :
  map (fun i => (i, i + 1)) (range3 0 (Q - 1) 2)
  = filter (fun p => Z.even (fst p)) (table_linear Q).
Proof.
  unfold range3, table_linear. simpl.
  rewrite range_iter_step2 by lia.
  rewrite filter_map_comm, Z.sub_0_r, upfrom_indices. simpl.
  f_equal. apply filter_ext. intros i. now rewrite Z.sub_0_r.
Qed.

Lemma odd_start_code_table Q :
  map (fun i => (i, i + 1)) (range3 1 (Q - 1) 2)
  = filter (fun p => Z.odd (fst p)) (table_linear Q).
Proof.
  unfold range3, table_linear. simpl.
  rewrite range_iter_step2 by lia.
  rewrite filter_map_comm. simpl. f_equal.
  rewrite <- upfrom_indices.
  destruct (Z.to_nat (Q - 1)) as [|n] eqn:E.
  - replace (Z.to_nat (Q - 1 - 1)) with O by lia. reflexivity.
  - rewrite upfrom_S. cbn [filter Z.odd].
    replace (Z.to_nat (Q - 1 - 1)) with n by lia.
    apply filter_ext. intros i.
    replace i with (i - 1 + 1) at 2 by lia.
    rewrite Z.odd_add. cbn [Z.odd].
    rewrite <- Z.negb_even. now destruct (Z.even (i - 1)).
Qed.

(** [combinations(l, 2)] pairs every element with each later one. *)
Lemma pairs_of_app {A} (u v : list (list A)) :
  pairs_of (u ++ v) = pairs_of u ++ pairs_of v.
Proof.
  induction u as [|t u IH]; simpl; [reflexivity|].
  destruct (as_pair t); simpl; now rewrite IH.
Qed.

Lemma combinations_0 {A} (l : list A) : combinations l 0 = [[]].
Proof. now destruct l. Qed.

Lemma combinations_1 {A} (l : list A) :
  combinations l 1 = map (fun y => [y]) l.
Proof.
  induction l as [|x l IH]; [reflexivity|].
  cbn [combinations]. now rewrite combinations_0, IH.
Qed.

Lemma pairs_of_combinations_cons {A} (x : A) (t : list A) :
  pairs_of (combinations (x :: t) 2)
  = map (pair x) t ++ pairs_of (combinations t 2).
Proof.
  cbn [combinations]. rewrite pairs_of_app, combinations_1. f_equal.
  induction t as [|y t IH]; [reflexivity|]. simpl. now rewrite IH.
Qed.

Lemma filter_before_row x t :
  Forall (fun y => x < y) t ->
  filter before (map (pair x) t) = map (pair x) t.
Proof.
  induction 1 as [|y t Hy _ IH]; [reflexivity|].
  simpl. unfold before at 1. simpl.
  destruct (Z.ltb_spec x y); [now rewrite IH|lia].
Qed.

Lemma filter_before_drop_col x t s :
  Forall (fun a => x < a) s ->
  filter before (list_prod s (x :: t)) = filter before (list_prod s t).
Proof.
  induction 1 as [|a s Ha _ IH]; [reflexivity|].
  cbn [list_prod map app]. cbn [filter]. unfold before at 1. simpl.
  destruct (Z.ltb_spec a x); [lia|].
  now rewrite !filter_app, IH.
Qed.

Lemma combinations_sorted l :
  StronglySorted Z.lt l ->
  pairs_of (combinations l 2) = filter before (list_prod l l).
Proof.
  induction 1 as [|x t Ht IH Hx]; [reflexivity|].
  rewrite pairs_of_combinations_cons, IH.
  cbn [list_prod map app filter]. unfold before at 2. simpl.
  rewrite Z.ltb_irrefl, filter_app, filter_before_row by assumption.
  now rewrite filter_before_drop_col.
Qed.

Lemma upfrom_sorted n : forall cur, StronglySorted Z.lt (upfrom cur n).
Proof.
  induction n as [|n IH]; intros cur; [constructor|].
  rewrite upfrom_S. constructor; [apply IH|].
  apply Forall_forall. intros y Hy. unfold upfrom in Hy.
  apply in_map_iff in Hy. destruct Hy as [k [<- _]]. lia.
Qed.

Lemma full_code_table Q :
  pairs_of (combinations (range Q) 2) = table_full Q.
Proof.
  unfold table_full. rewrite range_indices, <- upfrom_indices.
  apply combinations_sorted, upfrom_sorted.
Qed.

(** The table's 'full' row really is the set of pairs i<j below Q. *)
Lemma in_indices Q i : In i (indices Q) <-> 0 <= i < Q.
Proof.
  unfold indices. rewrite in_map_iff. split.
  - intros [k [<- Hk]]. apply in_seq in Hk. lia.
  - intros H. exists (Z.to_nat i). split; [lia|]. apply in_seq. lia.
Qed.

Lemma in_table_full Q i j :
  In (i, j) (table_full Q) <-> 0 <= i /\ i < j /\ j < Q.
Proof.
  unfold table_full. rewrite filter_In, in_prod_iff, !in_indices. simpl.
  rewrite Z.ltb_lt. lia.
Qed.

(** *** The 'sca' topology *)

Lemma length_indices Q : List.length (indices Q) = Z.to_nat Q.
Proof. unfold indices. now rewrite length_map, length_seq. Qed.

Lemma length_table_circular Q :
  1 <= Q -> List.length (table_circular Q) = Z.to_nat Q.
Proof.
  intros H. unfold table_circular, table_linear. simpl.
  rewrite length_map, length_indices. lia.
Qed.

Lemma length_rotate_right {A} (k : nat) (l : list A) :
  List.length (rotate_right k l) = List.length l.
Proof.
  unfold rotate_right. rewrite length_app, length_skipn, length_firstn. lia.
Qed.

Lemma nth_rotate_right {A} (k i : nat) (l : list A) (d : A) :
  (k <= List.length l)%nat -> (i < List.length l)%nat ->
  nth i (rotate_right k l) d
  = nth (if (i <? k)%nat then i + List.length l - k else i - k)%nat l d.
Proof.
  intros Hk Hi. unfold rotate_right.
  destruct (Nat.ltb_spec i k) as [Hlt|Hge].
  - rewrite app_nth1 by (rewrite length_skipn; lia).
    rewrite nth_skipn. f_equal. lia.
  - rewrite app_nth2 by (rewrite length_skipn; lia).
    rewrite length_skipn, nth_firstn.
    destruct (Nat.ltb_spec (i - (List.length l - (List.length l - k)))
                           (List.length l - k)); [|lia].
    f_equal. lia.
Qed.

(** The index the code reads for output position [i]. *)
Lemma sca_index Q rep i :
  1 <= Q -> 0 <= i < Q ->
  Z.to_nat ((i - rep) mod Q)
  = (if (Z.to_nat i <? Z.to_nat (rep mod Q))%nat
     then Z.to_nat i + Z.to_nat Q - Z.to_nat (rep mod Q)
     else Z.to_nat i - Z.to_nat (rep mod Q))%nat.
Proof.
  intros HQ Hi.
  assert (Hr : 0 <= rep mod Q < Q) by (apply Z.mod_pos_bound; lia).
  rewrite <- Zminus_mod_idemp_r.
  destruct (Nat.ltb_spec (Z.to_nat i) (Z.to_nat (rep mod Q))) as [Hlt|Hge].
  - replace ((i - rep mod Q) mod Q) with (i - rep mod Q + Q); [lia|].
    apply Z.mod_unique with (q := -1); lia.
  - rewrite Z.mod_small by lia. lia.
Qed.

Lemma nth_map_seq {A} (f : nat -> A) (len n : nat) (d : A) :
  (n < len)%nat -> nth n (map f (seq 0 len)) d = f n.
Proof.
  intros H.
  rewrite nth_indep with (d' := f O) by (rewrite length_map, length_seq; lia).
  now rewrite (map_nth f), seq_nth.
Qed.

Lemma sca_code_rotation Q rep :
  1 <= Q ->
  map (fun i => nth (Z.to_nat ((i - rep) mod Q)) (table_circular Q) (0, 0))
      (indices Q)
  = rotate_right (Z.to_nat (rep mod Q)) (table_circular Q).
Proof.
  intros HQ.
  assert (Hr : 0 <= rep mod Q < Q) by (apply Z.mod_pos_bound; lia).
  pose proof (length_table_circular Q HQ) as HL.
  apply nth_ext with (d := (0, 0)) (d' := (0, 0)).
  - now rewrite length_map, length_indices, length_rotate_right.
  - intros n Hn. rewrite length_map, length_indices in Hn.
    unfold indices. rewrite map_map, nth_map_seq by lia.
    rewrite nth_rotate_right by lia.
    rewrite sca_index by lia. rewrite HL, Nat2Z.id. reflexivity.
Qed.

Lemma sca_code_value Q rep :
  1 <= Q ->
  get_entanglement_pattern Q "sca"%string rep = Ok (sca_rotated_right Q rep).
Proof.
  intros HQ. unfold get_entanglement_pattern.
  cbn [get_entanglement_pattern_rec String.eqb Ascii.eqb Bool.eqb bind app].
  rewrite linear_code_table. fold (table_circular Q).
  rewrite range_indices.
  rewrite mapM_all_ok
    with (g := fun i =>
                 nth (Z.to_nat ((i - rep) mod Q)) (table_circular Q) (0, 0)).
  2:{ intros i Hi. apply in_indices in Hi. apply getitem_in_range.
      rewrite length_table_circular by lia.
      pose proof (Z.mod_pos_bound (i - rep) Q). lia. }
  cbn [bind]. rewrite sca_code_rotation by lia.
  unfold sca_rotated_right, orient. rewrite Zmod_odd.
  destruct (Z.odd rep); simpl.
  - f_equal. apply map_ext. now intros [a b].
  - now rewrite map_id.
Qed.

(** C7. For every qubit count Q >= 1 and whatever repetition index is
    passed, [get_entanglement_pattern] yields exactly the sequence of the
    specification's topology table for the tags 'full' (every pair i<j in
    lexicographic order), 'linear', 'reverse_linear', 'pairwise' (even-start
    pairs, then odd-start pairs) and 'circular' ((Q-1,0), then 'linear'). *)
Theorem entanglement_pattern_matches_table (Q rep : Z) :
  1 <= Q ->
  get_entanglement_pattern Q "full"%string rep = Ok (table_full Q) /\
  get_entanglement_pattern Q "linear"%string rep = Ok (table_linear Q) /\
  get_entanglement_pattern Q "reverse_linear"%string rep
    = Ok (table_reverse_linear Q) /\
  get_entanglement_pattern Q "pairwise"%string rep = Ok (table_pairwise Q) /\
  get_entanglement_pattern Q "circular"%string rep = Ok (table_circular Q).
Proof.
  intros _. unfold get_entanglement_pattern.
  cbn [get_entanglement_pattern_rec String.eqb Ascii.eqb Bool.eqb bind app].
  rewrite full_code_table, linear_code_table, reverse_linear_code_table,
    even_start_code_table, odd_start_code_table.
  repeat split; reflexivity.
Qed.

Lemma entanglement_pattern_matches_table_witness :
  1 <= 4 /\
  (get_entanglement_pattern 4 "full"%string 0 = Ok (table_full 4) /\
   get_entanglement_pattern 4 "linear"%string 0 = Ok (table_linear 4) /\
   get_entanglement_pattern 4 "reverse_linear"%string 0
     = Ok (table_reverse_linear 4) /\
   get_entanglement_pattern 4 "pairwise"%string 0 = Ok (table_pairwise 4) /\
   get_entanglement_pattern 4 "circular"%string 0 = Ok (table_circular 4)).
Proof.
  split; [lia | apply (entanglement_pattern_matches_table 4 0); lia].
Defined.

(** C8, as the code has it. For every qubit count Q >= 1 and repetition
    index rep, the 'sca' pattern is the Q-length 'circular' sequence rotated
    cyclically to the RIGHT by rep positions, each pair turned around when
    rep is odd; output index i holds circular[(i - rep) mod Q]. *)
Theorem sca_pattern_rotates_right (Q rep : Z) :
  1 <= Q ->
  get_entanglement_pattern Q "sca"%string rep = Ok (sca_rotated_right Q rep) /\
  List.length (sca_rotated_right Q rep) = Z.to_nat Q /\
  forall i, 0 <= i < Q ->
    nth_error (sca_rotated_right Q rep) (Z.to_nat i)
    = option_map (orient rep)
        (nth_error (table_circular Q) (Z.to_nat ((i - rep) mod Q))).
Proof.
  intros HQ. split; [now apply sca_code_value|].
  pose proof (length_table_circular Q HQ) as HL.
  unfold sca_rotated_right. split.
  - now rewrite length_map, length_rotate_right.
  - intros i Hi. rewrite <- sca_code_rotation by lia.
    rewrite !nth_error_map. unfold indices.
    rewrite nth_error_map, nth_error_seq.
    destruct (Nat.ltb_spec (Z.to_nat i) (Z.to_nat Q)); [|lia]. simpl.
    rewrite Z2Nat.id by lia.
    pose proof (Z.mod_pos_bound (i - rep) Q).
    rewrite nth_error_nth' with (d := (0, 0)) by lia. reflexivity.
Qed.

Lemma sca_pattern_rotates_right_witness :
  1 <= 5 /\
  get_entanglement_pattern 5 "sca"%string 1 = Ok (sca_rotated_right 5 1) /\
  List.length (sca_rotated_right 5 1) = Z.to_nat 5 /\
  forall i, 0 <= i < 5 ->
    nth_error (sca_rotated_right 5 1) (Z.to_nat i)
    = option_map (orient 1)
        (nth_error (table_circular 5) (Z.to_nat ((i - 1) mod 5))).
Proof.
  split; [lia | apply (sca_pattern_rotates_right 5 1); lia].
Defined.

(** C8, as worded, fails: on 4 qubits at repetition 1 the code's first pair
    is circular[3] turned around, (3,2); a rotation to the left by one
    position would put circular[1] turned around, (1,0), there. *)
Lemma sca_pattern_not_rotated_left :
  get_entanglement_pattern 4 "sca"%string 1
    = Ok [(3,2); (0,3); (1,0); (2,1)] /\
  sca_rotated_left 4 1 = [(1,0); (2,1); (3,2); (0,3)] /\
  get_entanglement_pattern 4 "sca"%string 1 <> Ok (sca_rotated_left 4 1).
Proof.
  split; [reflexivity|]. split; [reflexivity|].
  intros H. vm_compute in H. discriminate H.
Qed.

End EntanglementFacts.

Module VectorizeFacts.
Import Py PyFacts Vectorize.

Lemma nth_error_concat_rows {A} (m : nat) (rows : list (list A)) :
  Forall (fun r => List.length r = m) rows ->
  forall i j, (i < List.length rows)%nat -> (j < m)%nat ->
  nth_error (List.concat rows) (i * m + j) = nth_error (nth i rows []) j.
Proof.
  induction 1 as [|r rows Hr _ IH]; intros i j Hi Hj; simpl in Hi; [lia|].
  destruct i as [|i]; simpl.
  - apply nth_error_app1. lia.
  - rewrite nth_error_app2 by lia.
    replace (m + i * m + j - List.length r)%nat with (i * m + j)%nat by lia.
    apply IH; lia.
Qed.

Lemma length_concat_rows {A} (m : nat) (rows : list (list A)) :
  Forall (fun r => List.length r = m) rows ->
  List.length (List.concat rows) = (List.length rows * m)%nat.
Proof.
  induction 1 as [|r rows Hr _ IH]; [reflexivity|].
  simpl. rewrite length_app, IH. lia.
Qed.

Lemma call_value {float} (kernel : kernel_fn float) (X Y : ndarray float)
    (N M : nat) (sx sy : list nat) (k : nat -> nat -> float) :
  shape X = N :: sx -> shape Y = M :: sy ->
  (forall i j, (i < N)%nat -> (j < M)%nat ->
     kernel (row X i) (row Y j) = Ok (k i j)) ->
  call kernel X (Some Y)
  = Ok (mk_ndarray [N; M]
          (List.concat (map (fun i => map (k i) (seq 0 M)) (seq 0 N)))).
Proof.
  intros HX HY Hk. unfold call, shape0, iterate. rewrite HX, HY. cbn [bind].
  rewrite mapM_map.
  rewrite mapM_all_ok with (g := fun i => map (k i) (seq 0 M)); [reflexivity|].
  intros i Hi. apply in_seq in Hi. cbn [bind]. rewrite mapM_map.
  apply mapM_all_ok. intros j Hj. apply in_seq in Hj. apply Hk; lia.
Qed.

(** C9, as the code has it. Called on arrays X (first axis N) and Y (first
    axis M, X itself when Y is omitted) of any dimension >= 1 and of any
    feature dimensions, equal or not, the wrapper returns the N x M matrix
    whose entry (i,j) is kernel(X[i], Y[j]) whenever these kernel calls
    return; it checks no shape itself. *)
Theorem vectorize_call_entries {float} (kernel : kernel_fn float)
    (X Y : ndarray float) (N M : nat) (sx sy : list nat)
    (k : nat -> nat -> float) :
  shape X = N :: sx -> shape Y = M :: sy ->
  (forall i j, (i < N)%nat -> (j < M)%nat ->
     kernel (row X i) (row Y j) = Ok (k i j)) ->
  call kernel X None = call kernel X (Some X) /\
  exists K,
    call kernel X (Some Y) = Ok K /\
    shape K = [N; M] /\
    well_formed K /\
    forall i j, (i < N)%nat -> (j < M)%nat -> entry K i j = Some (k i j).
Proof.
  intros HX HY Hk. split; [reflexivity|].
  set (rows := map (fun i => map (k i) (seq 0 M)) (seq 0 N)).
  assert (Hrows : Forall (fun r => List.length r = M) rows).
  { apply Forall_forall. intros r Hr. apply in_map_iff in Hr.
    destruct Hr as [i [<- _]]. now rewrite length_map, length_seq. }
  assert (Hlen : List.length rows = N)
    by (unfold rows; now rewrite length_map, length_seq).
  exists (mk_ndarray [N; M] (List.concat rows)).
  split; [now apply call_value with (sx := sx) (sy := sy)|].
  split; [reflexivity|]. split.
  - unfold well_formed. simpl.
    rewrite (length_concat_rows M) by assumption. lia.
  - intros i j Hi Hj. unfold entry. simpl.
    destruct (Nat.ltb_spec j M); [|lia].
    rewrite (nth_error_concat_rows M) by (assumption || lia).
    unfold rows.
    rewrite nth_indep with (d' := map (k O) (seq 0 M))
      by (rewrite length_map, length_seq; lia).
    rewrite (map_nth (fun i => map (k i) (seq 0 M))), seq_nth by lia.
    rewrite nth_error_map, nth_error_seq.
    destruct (Nat.ltb_spec j M); [reflexivity|lia].
Qed.

Lemma vectorize_call_entries_witness :
  let k := fun (i _ : nat) => (nth i [1; 3] 0 * 5)%Z in
  exists K,
    call first_feature_product X_2feat (Some Y_3feat) = Ok K /\
    shape K = [2; 1]%nat /\
    forall i j, (i < 2)%nat -> (j < 1)%nat -> entry K i j = Some (k i j).
Proof.
  intros k.
  destruct (vectorize_call_entries first_feature_product X_2feat Y_3feat
              2 1 [2]%nat [3]%nat k) as [_ [K [HK [HS [_ HE]]]]].
  - reflexivity.
  - reflexivity.
  - intros i j Hi Hj.
    destruct i as [|[|i]]; [| |lia]; (destruct j as [|j]; [reflexivity|lia]).
  - exists K. split; [exact HK|]. split; [exact HS|exact HE].
Defined.

(** C9, as worded, fails: with samples of two features in X and of three
    features in Y, and with a 1-dimensional X, the call returns a matrix
    instead of raising. *)
Lemma vectorize_call_accepts_any_shape :
  shape X_2feat = [2; 2]%nat /\ shape Y_3feat = [1; 3]%nat /\
  call first_feature_product X_2feat (Some Y_3feat)
    = Ok (mk_ndarray [2; 1]%nat [5; 15]%Z) /\
  ~ raises (call first_feature_product X_2feat (Some Y_3feat)) /\
  ndim X_1dim = 1%nat /\
  call first_feature_product X_1dim None
    = Ok (mk_ndarray [2; 2]%nat [9; 12; 12; 16]%Z) /\
  ~ raises (call first_feature_product X_1dim None).
Proof.
  repeat split; try reflexivity; intros [e He]; discriminate He.
Qed.

End VectorizeFacts.

Module BoostFacts.
Import Py PyFacts Boost.
Open Scope R_scope.

(** A lemma that names an arithmetic [fl] holds in every arithmetic, the
    binary64 arithmetic of numpy among them; the others are about [exact]
    arithmetic.  [exact_arith] replaces the operations of [exact] by those
    of the real numbers. *)
Ltac exact_arith :=
  cbn [fadd fsub fmul fdiv np_exp np_log np_sum np_dot literal exact] in *.

(** *** [np.argmin] *)

Lemma first_min_snd t : forall x, snd (first_min x t) = list_min x t.
Proof.
  induction t as [|x' t IH]; intros x; [reflexivity|].
  simpl. specialize (IH x'). destruct (first_min x' t) as [i m].
  simpl in IH. subst m. unfold Rmin.
  destruct (Rle_dec x (list_min x' t)); reflexivity.
Qed.

Lemma first_min_lt t : forall x,
  (fst (first_min x t) < S (List.length t))%nat.
Proof.
  induction t as [|x' t IH]; intros x; simpl; [lia|].
  specialize (IH x'). destruct (first_min x' t) as [i m].
  destruct (Rle_dec x m); simpl in *; lia.
Qed.

Lemma first_min_nth t : forall x d,
  nth (fst (first_min x t)) (x :: t) d = snd (first_min x t).
Proof.
  induction t as [|x' t IH]; intros x d; [reflexivity|].
  cbn [first_min]. specialize (IH x' d).
  destruct (first_min x' t) as [i m].
  destruct (Rle_dec x m); [reflexivity|exact IH].
Qed.

Lemma list_min_le t : forall x, Forall (fun e => list_min x t <= e) (x :: t).
Proof.
  induction t as [|x' t IH]; intros x.
  - constructor; [simpl; lra|constructor].
  - specialize (IH x'). cbn [list_min]. constructor; [apply Rmin_l|].
    eapply Forall_impl; [|exact IH]. simpl. intros e He.
    eapply Rle_trans; [apply Rmin_r|exact He].
Qed.

Lemma list_min_in t : forall x, In (list_min x t) (x :: t).
Proof.
  induction t as [|x' t IH]; intros x; [now left|].
  cbn [list_min]. unfold Rmin.
  destruct (Rle_dec x (list_min x' t)); [now left|right; apply IH].
Qed.

(** *** One round *)

Lemma getitem_nat {A} (l : list A) (i : nat) (d : A) :
  (i < List.length l)%nat -> getitem l (Z.of_nat i) = Ok (nth i l d).
Proof.
  intros H. rewrite (getitem_in_range l (Z.of_nat i) d) by lia.
  now rewrite Nat2Z.id.
Qed.

(** The round on a non-empty candidate list, with the indexing resolved:
    [i] is the first candidate of minimum weighted error [m], both as the
    arithmetic computes them. *)
Lemma boost_round_any {fl : arithmetic} c cs X y w :
  let errors := weighted_errors (c :: cs) X y w in
  let i := fst (first_min (hd 0 errors) (tl errors)) in
  let m := list_min (hd 0 errors) (tl errors) in
  let alpha :=
    fmul 0.5 (np_log (fdiv (fsub 1 m) (fadd m (literal 1e-10)))) in
  boost_round (c :: cs) X y w
  = if Rle_dec 1 m then Ok Break
    else Ok (Completed
               (normalize (reweigh alpha w y (nth i (c :: cs) c X)))
               alpha (nth i (c :: cs) c)).
Proof.
  intros errors i m alpha. unfold boost_round. cbv zeta.
  rewrite map_map. fold (weighted_errors (c :: cs) X y w). fold errors.
  assert (He : errors = hd 0 errors :: tl errors) by reflexivity.
  assert (Hlen : List.length (tl errors) = List.length cs).
  { unfold errors, weighted_errors. simpl. now rewrite length_map. }
  pose proof (first_min_lt (tl errors) (hd 0 errors)) as Hi. fold i in Hi.
  rewrite Hlen in Hi.
  assert (Hnth : nth i errors 0 = m).
  { rewrite He. unfold i, m. now rewrite first_min_nth, first_min_snd. }
  assert (Hlen' : List.length errors = S (List.length cs)).
  { rewrite He. cbn [List.length]. now rewrite Hlen. }
  rewrite He at 1. cbn [argmin bind]. fold i.
  unfold alpha. clearbody i m errors.
  rewrite (getitem_nat (c :: cs) i c) by exact Hi. cbn [bind].
  rewrite (getitem_nat errors i 0) by (rewrite Hlen'; exact Hi).
  cbn [bind]. rewrite Hnth.
  replace 1.0 with 1 by lra.
  destruct (Rle_dec 1 m); [reflexivity|].
  rewrite (getitem_nat _ i (c X)) by (rewrite length_map; exact Hi).
  cbn [bind]. now rewrite (map_nth (fun clf => clf X)).
Qed.

(** In exact arithmetic the weight of the round is [alpha_of] of the
    minimum error. *)
Lemma alpha_of_value m :
  fmul 0.5 (np_log (fdiv (fsub 1 m) (fadd m (literal 1e-10)))) = alpha_of m.
Proof.
  cbn [fmul np_log fdiv fsub fadd literal exact]. unfold alpha_of.
  f_equal; [lra|]. f_equal. f_equal. f_equal. lra.
Qed.

Lemma boost_round_value c cs X y w :
  let errors := weighted_errors (c :: cs) X y w in
  let i := fst (first_min (hd 0 errors) (tl errors)) in
  let m := list_min (hd 0 errors) (tl errors) in
  boost_round (c :: cs) X y w
  = if Rle_dec 1 m then Ok Break
    else Ok (Completed
               (normalize (reweigh (alpha_of m) w y (nth i (c :: cs) c X)))
               (alpha_of m) (nth i (c :: cs) c)).
Proof.
  intros errors i m. rewrite boost_round_any. cbv zeta.
  fold errors. fold i. fold m. now rewrite alpha_of_value.
Qed.

Lemma best_candidate_error {fl : arithmetic} c cs X y w :
  let errors := weighted_errors (c :: cs) X y w in
  let i := fst (first_min (hd 0 errors) (tl errors)) in
  masked_sum w y (nth i (c :: cs) c X) = list_min (hd 0 errors) (tl errors)
  /\ In (nth i (c :: cs) c) (c :: cs).
Proof.
  intros errors i.
  assert (He : errors = hd 0 errors :: tl errors) by reflexivity.
  assert (Hlen : List.length errors = List.length (c :: cs))
    by (unfold errors, weighted_errors; now rewrite length_map).
  pose proof (first_min_lt (tl errors) (hd 0 errors)) as Hi. fold i in Hi.
  assert (Hi' : (i < List.length (c :: cs))%nat).
  { rewrite <- Hlen, He. exact Hi. }
  split; [|now apply nth_In].
  rewrite <- first_min_snd, <- (first_min_nth _ _ 0), <- He. fold i.
  rewrite nth_indep with (d' := masked_sum w y (c X))
    by (rewrite Hlen; exact Hi').
  unfold errors, weighted_errors.
  now rewrite (map_nth (fun clf => masked_sum w y (clf X))).
Qed.

Lemma min_weighted_error_cons {fl : arithmetic} c cs X y w :
  min_weighted_error (c :: cs) X y w
  = Some (list_min (hd 0 (weighted_errors (c :: cs) X y w))
                   (tl (weighted_errors (c :: cs) X y w))).
Proof. reflexivity. Qed.


(** The minimum is the error of some candidate and no candidate has a
    smaller one. *)
Lemma min_weighted_error_is_min {fl : arithmetic} wcs X y w e :
  min_weighted_error wcs X y w = Some e ->
  In e (weighted_errors wcs X y w) /\
  Forall (fun e' => e <= e') (weighted_errors wcs X y w).
Proof.
  unfold min_weighted_error.
  destruct (weighted_errors wcs X y w) as [|x t]; [discriminate|].
  intros [= <-]. split; [apply list_min_in|apply list_min_le].
Qed.




(** *** The loop of [fit] *)

Lemma boost_round_no_candidates {fl : arithmetic} X y w :
  boost_round [] X y w = Raise ValueError.
Proof. reflexivity. Qed.

(** [fit] only ever appends to the two record lists and leaves the rest of
    the object alone. *)
Lemma fit_loop_records {fl : arithmetic} rounds : forall self X y w self' w' r,
  fit_loop rounds self X y w = (self', w', r) ->
  weak_classifiers self' = weak_classifiers self /\
  n_estimators self' = n_estimators self /\
  num_workers self' = num_workers self /\
  exists new_alphas new_clfs,
    alphas self' = alphas self ++ new_alphas /\
    selected_classifiers self' = selected_classifiers self ++ new_clfs /\
    List.length new_alphas = List.length new_clfs /\
    (List.length new_alphas <= rounds)%nat.
Proof.
  induction rounds as [|rounds IH]; intros self X y w self' w' r H.
  - injection H as <- _ _. repeat split.
    exists [], []. rewrite !app_nil_r. repeat split. simpl. lia.
  - cbn [fit_loop] in H.
    destruct (boost_round (weak_classifiers self) X y w) as [[|w1 alpha clf]|e].
    + injection H as <- _ _. repeat split.
      exists [], []. rewrite !app_nil_r. repeat split. simpl. lia.
    + apply IH in H. destruct H as [H1 [H2 [H3 [na [nc [Ha [Hc [Hl Hr]]]]]]]].
      simpl in H1, H2, H3, Ha, Hc. repeat split; try assumption.
      exists (alpha :: na), (clf :: nc).
      rewrite Ha, Hc, <- !app_assoc. simpl. repeat split; lia.
    + injection H as <- _ _. repeat split.
      exists [], []. rewrite !app_nil_r. repeat split. simpl. lia.
Qed.


Lemma fit_value {fl : arithmetic} self X y :
  fit self X y
  = (fst (fst (fit_run self X y)), snd (fit_run self X y)).
Proof. unfold fit. now destruct (fit_run self X y) as [[s w] r]. Qed.





(** C5, as the code has it. With no candidate classifier [fit] makes no
    check up front: asked for at least one round it raises in the first
    round, from the arg-min over the empty array of errors, and leaves the
    object as it was; asked for no round it returns normally. *)
Theorem fit_without_classifiers {fl : arithmetic} (self : AdaBoost)
    (X : matrix) (y : labels) :
  weak_classifiers self = [] ->
  ((1 <= n_estimators self)%Z -> fit self X y = (self, Raise ValueError)) /\
  ((n_estimators self <= 0)%Z -> fit self X y = (self, Ok tt)).
Proof.
  intros Hw. rewrite fit_value. unfold fit_run. split; intros Hn.
  - destruct (Z.to_nat (n_estimators self)) as [|k] eqn:E; [lia|].
    cbn [fit_loop]. rewrite Hw, boost_round_no_candidates. reflexivity.
  - replace (Z.to_nat (n_estimators self)) with O by lia. reflexivity.
Qed.

Lemma fit_without_classifiers_witness :
  fit (init [] 50 1) one_sample one_label = (init [] 50 1, Raise ValueError) /\
  fit (init [] 0 1) one_sample one_label = (init [] 0 1, Ok tt).
Proof.
  split.
  - apply (fit_without_classifiers (init [] 50 1) one_sample one_label);
      [reflexivity | simpl; lia].
  - apply (fit_without_classifiers (init [] 0 1) one_sample one_label);
      [reflexivity | simpl; lia].
Defined.

(** C5, as worded, fails: an ensemble without candidates and with
    n_estimators = 0 is fitted without any error. *)
Lemma fit_without_classifiers_can_succeed :
  weak_classifiers (init [] 0 1) = [] /\
  fit (init [] 0 1) one_sample one_label = (init [] 0 1, Ok tt) /\
  ~ raises (snd (fit (init [] 0 1) one_sample one_label)).
Proof.
  split; [reflexivity|]. split; [reflexivity|].
  intros [e He]. discriminate He.
Qed.

(** *** [predict] *)

Lemma vote_spec score :
  (0 < score -> vote score = 1%Z) /\ (score <= 0 -> vote score = (-1)%Z).
Proof.
  unfold vote. destruct (Rlt_dec 0 score); split; intros; (reflexivity || lra).
Qed.

Lemma vote_zero : vote 0 = (-1)%Z.
Proof. apply vote_spec. lra. Qed.

Lemma clf_preds_value {fl : arithmetic} self X :
  (1 <= num_workers self)%Z ->
  predict self X
  = weighted_vote (alphas self)
      (map (fun clf => clf X) (selected_classifiers self)).
Proof.
  intros H. unfold predict.
  destruct (Z.eqb_spec (num_workers self) 1); [reflexivity|].
  destruct (Z.leb_spec (num_workers self) 0); [lia|reflexivity].
Qed.

Lemma predict_empty_value {fl : arithmetic} self X :
  alphas self = [] -> selected_classifiers self = [] ->
  (1 <= num_workers self)%Z ->
  predict self X = Ok (Scalar (-1)).
Proof.
  intros Ha Hs Hw. rewrite clf_preds_value by assumption.
  rewrite Ha, Hs. simpl. now rewrite vote_zero.
Qed.

Lemma dot_column_score X j : forall als sel,
  dot_column als (map (fun clf => clf X) sel) j
  = sum (map (fun rec : classifier * R => snd rec * IZR (nth j (fst rec X) 0%Z))
             (combine sel als)).
Proof.
  induction als as [|a als IH]; intros [|c sel]; try reflexivity.
  change (dot_column (a :: als) (map (fun clf => clf X) (c :: sel)) j)
    with (a * IZR (nth j (c X) 0%Z)
          + dot_column als (map (fun clf => clf X) sel) j).
  rewrite IH. reflexivity.
Qed.

Lemma weighted_vote_rows {fl : arithmetic} alphas p ps :
  List.length alphas = S (List.length ps) ->
  Forall (fun q => List.length q = List.length p) (p :: ps) ->
  weighted_vote alphas (p :: ps)
  = Ok (Vector (map (fun j => vote (dot_column alphas (p :: ps) j))
                    (seq 0 (List.length p)))).
Proof.
  intros Hlen Hrows.
  assert (Hcount : (List.length alphas =? List.length (p :: ps))%nat = true)
    by (apply Nat.eqb_eq; simpl; lia).
  assert (Hall : forallb (fun q => (List.length q =? List.length p)%nat)
                   (p :: ps) = true).
  { apply forallb_forall. intros q Hq.
    rewrite Forall_forall in Hrows. apply Nat.eqb_eq. now apply Hrows. }
  unfold weighted_vote, labels in *. now rewrite Hcount, Hall.
Qed.

Lemma nth_map_seq_Z (f : nat -> Z) (len n : nat) :
  (n < len)%nat -> nth n (map f (seq 0 len)) 0%Z = f n.
Proof.
  intros H.
  rewrite nth_indep with (d' := f O) by (rewrite length_map, length_seq; lia).
  now rewrite (map_nth f), seq_nth.
Qed.

(** In exact arithmetic the score is the sum, over the records, of alpha
    times the prediction. *)
Lemma ensemble_score_exact self X j :
  ensemble_score self X j = weighted_sum self X j.
Proof.
  unfold ensemble_score, weighted_sum.
  etransitivity; [|apply (dot_column_score X j)].
  unfold dot_column, column. now rewrite map_map.
Qed.



(** Two records of equal weight that disagree: the sum is exactly zero and
    the label is -1. *)
Example predict_tie_is_negative :
  predict (mk_AdaBoost [] 50 1 [1; 1] [always 1%Z; always (-1)%Z]) one_sample
  = Ok (Vector [(-1)%Z]).
Proof.
  unfold predict. simpl. unfold vote.
  match goal with
  | |- context [Rlt_dec 0 ?s] => destruct (Rlt_dec 0 s) as [H|H]
  end;
    [|reflexivity].
  cbv [dot_column column np_dot exact dot sum map combine fold_right fst snd
       nth always one_sample] in H.
  lra.
Qed.

(** C6, as the code has it. On an ensemble without records (and a worker
    count of at least one) [predict] does not fail: the dot product of the
    two empty arrays is the scalar 0.0 and the answer is the 0-dimensional
    array -1, whatever the input. *)
Theorem predict_without_records {fl : arithmetic} (self : AdaBoost)
    (X : matrix) :
  alphas self = [] -> selected_classifiers self = [] ->
  (1 <= num_workers self)%Z ->
  predict self X = Ok (Scalar (-1)) /\ ~ raises (predict self X).
Proof.
  intros Ha Hs Hw. rewrite predict_empty_value by assumption.
  split; [reflexivity|]. intros [e He]. discriminate He.
Qed.

Lemma predict_without_records_witness :
  predict (init [always 1%Z] 0 1) one_sample = Ok (Scalar (-1)) /\
  ~ raises (predict (init [always 1%Z] 0 1) one_sample).
Proof.
  apply (predict_without_records (init [always 1%Z] 0 1) one_sample).
  - reflexivity.
  - reflexivity.
  - simpl. lia.
Defined.

(** C6, as worded, fails: after a successful [fit] with n_estimators = 0
    the ensemble has no record and [predict] returns instead of raising. *)
Lemma predict_after_zero_rounds_returns :
  let fitted := fit (init [always 1%Z] 0 1) one_sample one_label in
  snd fitted = Ok tt /\
  alphas (fst fitted) = [] /\
  selected_classifiers (fst fitted) = [] /\
  predict (fst fitted) one_sample = Ok (Scalar (-1)) /\
  ~ raises (predict (fst fitted) one_sample).
Proof.
  cbv zeta.
  assert (Hfit : fit (init [always 1%Z] 0 1) one_sample one_label
                 = (init [always 1%Z] 0 1, Ok tt)) by reflexivity.
  rewrite Hfit. cbn [fst snd].
  rewrite (predict_empty_value (init [always 1%Z] 0 1) one_sample)
    by (reflexivity || (simpl; lia)).
  repeat split. intros [e He]. discriminate He.
Qed.

(** *** The sample weights *)

Lemma sum_nonneg w : Forall (fun wi => 0 <= wi) w -> 0 <= sum w.
Proof. induction 1 as [|wi w Hwi _ IH]; simpl; lra. Qed.

Lemma sum_map_div s w : sum (map (fun wi => wi / s) w) = sum w / s.
Proof.
  induction w as [|wi w IH]; simpl; [unfold Rdiv; lra|].
  rewrite IH. unfold Rdiv. lra.
Qed.

Lemma normalize_distribution w :
  Forall (fun wi => 0 <= wi) w -> 0 < sum w -> distribution (normalize w).
Proof.
  intros Hpos Hsum. unfold normalize. exact_arith. split.
  - apply Forall_forall. intros v Hv. apply in_map_iff in Hv.
    destruct Hv as [wi [<- Hin]]. rewrite Forall_forall in Hpos.
    apply Rle_mult_inv_pos; [now apply Hpos|exact Hsum].
  - rewrite sum_map_div. unfold Rdiv. apply Rinv_r. lra.
Qed.

Lemma length_normalize w : List.length (normalize w) = List.length w.
Proof. unfold normalize. apply length_map. Qed.

Lemma reweigh_nonneg alpha w : forall y preds,
  Forall (fun wi => 0 <= wi) w ->
  Forall (fun wi => 0 <= wi) (reweigh alpha w y preds).
Proof.
  induction w as [|wi w IH]; intros [|yi y] [|pi preds] H;
    simpl; try constructor.
  - inversion H; subst.
    apply Rmult_le_pos; [assumption|]. left. apply exp_pos.
  - inversion H; subst. now apply IH.
Qed.

Lemma length_reweigh alpha w : forall y preds,
  List.length y = List.length w -> List.length preds = List.length w ->
  List.length (reweigh alpha w y preds) = List.length w.
Proof.
  induction w as [|wi w IH]; intros [|yi y] [|pi preds] Hy Hp;
    simpl in *; try lia.
  rewrite IH; lia.
Qed.

Lemma reweigh_sum_pos alpha w : forall y preds,
  List.length y = List.length w -> List.length preds = List.length w ->
  Forall (fun wi => 0 <= wi) w -> 0 < sum w ->
  0 < sum (reweigh alpha w y preds).
Proof.
  induction w as [|wi w IH]; intros [|yi y] [|pi preds] Hy Hp Hpos Hsum;
    simpl in *; try lia; try lra.
  inversion Hpos as [|? ? Hwi Hw]; subst.
  pose proof (exp_pos (- alpha * IZR yi * IZR pi)) as Hexp.
  pose proof (sum_nonneg _ (reweigh_nonneg alpha w y preds Hw)) as Hrest.
  destruct (Rle_lt_or_eq_dec 0 wi Hwi) as [Hlt|Heq].
  - assert (0 < wi * exp (- alpha * IZR yi * IZR pi))
      by now apply Rmult_lt_0_compat.
    lra.
  - subst wi. rewrite Rmult_0_l, Rplus_0_l.
    apply IH; [lia|lia|assumption|lra].
Qed.

Lemma sum_uniform c n :
  sum (map (fun one => one / c) (repeat 1 n)) = INR n / c.
Proof.
  induction n as [|n IH]; [simpl; unfold Rdiv; lra|].
  cbn [repeat map sum fold_right].
  fold (sum (map (fun one => one / c) (repeat 1 n))).
  rewrite IH, S_INR. unfold Rdiv. lra.
Qed.

Lemma initial_weights_distribution X :
  (1 <= List.length X)%nat -> distribution (initial_weights X).
Proof.
  intros Hn. unfold initial_weights.
  assert (Hpos : 0 < INR (List.length X)) by (apply lt_0_INR; lia).
  split.
  - apply Forall_forall. intros v Hv. apply in_map_iff in Hv.
    destruct Hv as [one [<- Hin]]. apply repeat_spec in Hin. subst one.
    apply Rle_mult_inv_pos; lra.
  - rewrite sum_uniform. unfold Rdiv. apply Rinv_r. lra.
Qed.

Lemma length_initial_weights X :
  List.length (initial_weights X) = List.length X.
Proof. unfold initial_weights. now rewrite length_map, repeat_length. Qed.

(** A completed round turns a weight distribution into the renormalised
    reweighting by the selected classifier, again a distribution. *)
Lemma round_keeps_distribution wcs X y w w' alpha clf :
  valid_data wcs X y ->
  List.length w = List.length X -> distribution w ->
  boost_round wcs X y w = Ok (Completed w' alpha clf) ->
  w' = normalize (reweigh alpha w y (clf X)) /\
  List.length w' = List.length X /\ distribution w'.
Proof.
  intros [Hn [Hy Hall]] Hlen [Hpos Hsum] Hround.
  destruct wcs as [|c cs]; [discriminate Hround|].
  rewrite boost_round_value in Hround.
  pose proof (best_candidate_error c cs X y w) as [_ Hin].
  cbv zeta in Hround, Hin.
  set (m := list_min _ _) in *. set (i := fst _) in *. clearbody m i.
  destruct (Rle_dec 1 m); [discriminate Hround|].
  injection Hround as <- <- <-.
  rewrite Forall_forall in Hall. specialize (Hall _ Hin).
  split; [reflexivity|]. split.
  - rewrite length_normalize, length_reweigh;
      [exact Hlen | now rewrite Hlen | rewrite Hlen; exact Hall].
  - apply normalize_distribution.
    + now apply reweigh_nonneg.
    + apply reweigh_sum_pos;
        [now rewrite Hlen | rewrite Hlen; exact Hall | assumption | lra].
Qed.

Lemma fit_loop_keeps_distribution wcs X y rounds :
  valid_data wcs X y ->
  forall self w self' w' r,
  weak_classifiers self = wcs ->
  List.length w = List.length X -> distribution w ->
  fit_loop rounds self X y w = (self', w', r) ->
  List.length w' = List.length X /\ distribution w'.
Proof.
  intros Hvalid.
  induction rounds as [|rounds IH]; intros self w self' w' r Hw Hlen Hd H.
  - injection H as _ <- _. now split.
  - cbn [fit_loop] in H. rewrite Hw in H.
    destruct (boost_round wcs X y w) as [[|w1 alpha clf]|e] eqn:Hround.
    + injection H as _ <- _. now split.
    + destruct (round_keeps_distribution _ _ _ _ _ _ _ Hvalid Hlen Hd Hround)
        as [_ [Hlen1 Hd1]].
      eapply IH; [|exact Hlen1|exact Hd1|exact H]. exact Hw.
    + injection H as _ <- _. now split.
Qed.

(** C3. On valid data (at least one sample, a label per sample, a
    prediction per sample from every candidate) the sample weights are a
    distribution, non-negative and of sum 1, after initialisation; every
    completed round replaces a distribution [w] by
    normalize (w * exp(-alpha * y * predictions)), again a distribution;
    and so are the weights any run of the loop of [fit] ends with.
    Stated in exact arithmetic. *)
Theorem weights_stay_a_distribution (wcs : list classifier) (X : matrix)
    (y : labels) :
  valid_data wcs X y ->
  distribution (initial_weights X) /\
  (forall w w' alpha clf,
     List.length w = List.length X -> distribution w ->
     boost_round wcs X y w = Ok (Completed w' alpha clf) ->
     w' = normalize (reweigh alpha w y (clf X)) /\
     List.length w' = List.length X /\ distribution w') /\
  (forall rounds self self' w' r,
     weak_classifiers self = wcs ->
     fit_loop rounds self X y (initial_weights X) = (self', w', r) ->
     distribution w').
Proof.
  intros Hvalid. pose proof Hvalid as [Hn _].
  split; [now apply initial_weights_distribution|]. split.
  - intros w w' alpha clf. now apply round_keeps_distribution.
  - intros rounds self self' w' r Hw H.
    eapply (fit_loop_keeps_distribution wcs X y rounds Hvalid); eauto.
    + apply length_initial_weights.
    + now apply initial_weights_distribution.
Qed.

Lemma weights_stay_a_distribution_witness :
  valid_data [always 1%Z] one_sample one_label /\
  distribution (initial_weights one_sample) /\
  (forall rounds self' w' r,
     fit_loop rounds (init [always 1%Z] 50 1) one_sample one_label
       (initial_weights one_sample) = (self', w', r) ->
     distribution w').
Proof.
  assert (Hv : valid_data [always 1%Z] one_sample one_label).
  { split; [simpl; lia|]. split; [reflexivity|]. repeat constructor. }
  split; [exact Hv|].
  destruct (weights_stay_a_distribution [always 1%Z] one_sample one_label Hv)
    as [H1 [_ H3]].
  split; [exact H1|].
  intros rounds self' w' r H. eapply H3; [|exact H]. reflexivity.
Defined.

(** *** The records of the ensemble *)

Lemma fit_appends {fl : arithmetic} self X y :
  exists new_alphas new_clfs,
    alphas (fst (fit self X y)) = alphas self ++ new_alphas /\
    selected_classifiers (fst (fit self X y))
      = selected_classifiers self ++ new_clfs /\
    List.length new_alphas = List.length new_clfs /\
    (List.length new_alphas <= Z.to_nat (n_estimators self))%nat.
Proof.
  rewrite fit_value. cbn [fst]. unfold fit_run.
  destruct (fit_loop (Z.to_nat (n_estimators self)) self X y
              (initial_weights X))
    as [[self' w'] r] eqn:H.
  apply fit_loop_records in H. destruct H as [_ [_ [_ H]]]. exact H.
Qed.

Lemma reachable_balanced {fl : arithmetic} self :
  reachable self ->
  List.length (alphas self) = List.length (selected_classifiers self).
Proof.
  induction 1 as [wcs n workers|self X y _ IH]; [reflexivity|].
  destruct (fit_appends self X y) as [na [nc [Ha [Hc [Hl _]]]]].
  rewrite Ha, Hc, !length_app. lia.
Qed.

(** One round on the one-sample data with the candidate that is always
    right: the error is 0 and the round completes. *)
Lemma fit_one_round_perfect self :
  weak_classifiers self = [always 1%Z] -> n_estimators self = 1%Z ->
  exists alpha clf,
    fit self one_sample one_label = (append_record self alpha clf, Ok tt).
Proof.
  intros Hw Hn. rewrite fit_value. unfold fit_run. rewrite Hn.
  change (Z.to_nat 1) with 1%nat. cbn [fit_loop].
  rewrite Hw, boost_round_value. cbv zeta.
  match goal with |- context [Rle_dec 1 ?m] =>
    destruct (Rle_dec 1 m) as [Hle|_] end.
  - exfalso.
    cbv [weighted_errors always one_sample one_label initial_weights
         List.length repeat map masked_sum misclassified np_sum exact sum
         fold_right list_min hd tl Z.eqb Pos.eqb INR]
      in Hle.
    lra.
  - eexists. eexists. reflexivity.
Qed.

(** A second [fit] on the same object keeps the record of the first and
    adds its own. *)
Example refit_accumulates :
  let s0 := init [always 1%Z] 1 1 in
  let s1 := fst (fit s0 one_sample one_label) in
  let s2 := fst (fit s1 one_sample one_label) in
  List.length (alphas s0) = 0%nat /\
  List.length (alphas s1) = 1%nat /\
  List.length (alphas s2) = 2%nat /\
  List.length (selected_classifiers s2) = 2%nat /\
  firstn 1 (alphas s2) = alphas s1.
Proof.
  cbv zeta.
  destruct (fit_one_round_perfect (init [always 1%Z] 1 1)) as [a1 [c1 H1]];
    [reflexivity|reflexivity|].
  rewrite H1. cbn [fst].
  destruct (fit_one_round_perfect (append_record (init [always 1%Z] 1 1) a1 c1))
    as [a2 [c2 H2]]; [reflexivity|reflexivity|].
  rewrite H2. cbn [fst]. repeat split.
Qed.


(** C10. The two record lists are empty after construction; a completed
    round appends exactly one element to each; a call of [fit] keeps the
    records it finds and appends equally many alphas and classifiers, at most
    n_estimators of them; so the lists have equal length in every state the
    object reaches, and a second [fit] adds its records after those of the
    first. *)
Theorem records_only_grow {fl : arithmetic} :
  (forall wcs n workers,
     alphas (init wcs n workers) = [] /\
     selected_classifiers (init wcs n workers) = []) /\
  (forall rounds self X y w w' alpha best_clf,
     boost_round (weak_classifiers self) X y w
       = Ok (Completed w' alpha best_clf) ->
     fit_loop (S rounds) self X y w
       = fit_loop rounds (append_record self alpha best_clf) X y w' /\
     alphas (append_record self alpha best_clf) = alphas self ++ [alpha] /\
     selected_classifiers (append_record self alpha best_clf)
       = selected_classifiers self ++ [best_clf]) /\
  (forall self X y,
     exists new_alphas new_clfs,
       alphas (fst (fit self X y)) = alphas self ++ new_alphas /\
       selected_classifiers (fst (fit self X y))
         = selected_classifiers self ++ new_clfs /\
       List.length new_alphas = List.length new_clfs /\
       (List.length new_alphas <= Z.to_nat (n_estimators self))%nat) /\
  (forall self, reachable self ->
     List.length (alphas self) = List.length (selected_classifiers self)) /\
  (forall self X1 y1 X2 y2,
     exists first second,
       alphas (fst (fit self X1 y1)) = alphas self ++ first /\
       alphas (fst (fit (fst (fit self X1 y1)) X2 y2))
         = alphas self ++ first ++ second).
Proof.
  split; [intros; split; reflexivity|]. split.
  { intros rounds self X y w w' alpha best_clf H.
    cbn [fit_loop]. rewrite H. repeat split. }
  split; [exact fit_appends|]. split; [exact reachable_balanced|].
  intros self X1 y1 X2 y2.
  destruct (fit_appends self X1 y1) as [l1 [c1 [H1 _]]].
  destruct (fit_appends (fst (fit self X1 y1)) X2 y2) as [l2 [c2 [H2 _]]].
  exists l1, l2. split; [exact H1|]. now rewrite H2, H1, app_assoc.
Qed.

Lemma records_only_grow_witness :
  let s2 := fst (fit (fst (fit (init [always 1%Z] 1 1) one_sample one_label))
                     one_sample one_label) in
  List.length (alphas s2) = List.length (selected_classifiers s2).
Proof.
  cbv zeta.
  apply (proj1 (proj2 (proj2 (proj2 records_only_grow)))).
  apply reach_fit, reach_fit, reach_init.
Defined.

End BoostFacts.

(** ** More on [get_entanglement_pattern] *)

Module EntanglementMore.
Import Py PyFacts Entanglement EntanglementFacts.
Open Scope Z_scope.

(** The value of the function on each known tag. *)
Lemma fixed_pattern_value Q rep :
  get_entanglement_pattern Q "full"%string rep = Ok (table_full Q) /\
  get_entanglement_pattern Q "linear"%string rep = Ok (table_linear Q) /\
  get_entanglement_pattern Q "reverse_linear"%string rep
    = Ok (table_reverse_linear Q) /\
  get_entanglement_pattern Q "pairwise"%string rep = Ok (table_pairwise Q) /\
  get_entanglement_pattern Q "circular"%string rep = Ok (table_circular Q).
Proof.
  unfold get_entanglement_pattern.
  cbn [get_entanglement_pattern_rec String.eqb Ascii.eqb Bool.eqb bind app].
  rewrite full_code_table, linear_code_table, reverse_linear_code_table,
    even_start_code_table, odd_start_code_table.
  repeat split; reflexivity.
Qed.

Lemma unknown_tag_raises Q tag rep :
  ~ In tag topologies ->
  get_entanglement_pattern Q tag rep = Raise ValueError.
Proof.
  intros Hno. unfold get_entanglement_pattern.
  cbn [get_entanglement_pattern_rec].
  repeat match goal with
  | |- context [String.eqb tag ?t] =>
      destruct (String.eqb_spec tag t) as [->|_];
        [exfalso; apply Hno; simpl; tauto|]
  end.
  reflexivity.
Qed.

Lemma pattern_value Q tag rep :
  1 <= Q -> In tag topologies ->
  exists l, get_entanglement_pattern Q tag rep = Ok l /\
    (l = table_full Q \/ l = table_linear Q \/ l = table_reverse_linear Q \/
     l = table_pairwise Q \/ l = table_circular Q \/
     l = sca_rotated_right Q rep).
Proof.
  intros HQ Hin.
  destruct (fixed_pattern_value Q rep) as [H1 [H2 [H3 [H4 H5]]]].
  simpl in Hin.
  destruct Hin as [<-|[<-|[<-|[<-|[<-|[<-|[]]]]]]]; eexists;
    (split; [first [exact H1|exact H2|exact H3|exact H4|exact H5
                   |now apply sca_code_value]|]); tauto.
Qed.

(** X1. The function returns a pattern exactly on the six known tags:
    for Q >= 1 each of them yields a list, the 'sca' indexing never leaves
    the circular list, and any other string is a [ValueError] whatever the
    other arguments. *)
Theorem pattern_returns_iff_known (Q rep : Z) (tag : string) :
  1 <= Q ->
  (In tag topologies ->
     exists l, get_entanglement_pattern Q tag rep = Ok l) /\
  (~ In tag topologies ->
     get_entanglement_pattern Q tag rep = Raise ValueError) /\
  (raises (get_entanglement_pattern Q tag rep) <-> ~ In tag topologies).
Proof.
  intros HQ.
  assert (Hk : In tag topologies ->
               exists l, get_entanglement_pattern Q tag rep = Ok l).
  { intros Hin. destruct (pattern_value Q tag rep HQ Hin) as [l [Hl _]].
    now exists l. }
  split; [exact Hk|]. split; [apply unknown_tag_raises|].
  split.
  - intros [e He] Hin. destruct (Hk Hin) as [l Hl]. congruence.
  - intros Hno. exists ValueError. now apply unknown_tag_raises.
Qed.

Lemma pattern_returns_iff_known_witness :
  (exists l, get_entanglement_pattern 3 "pairwise"%string 7 = Ok l) /\
  get_entanglement_pattern 3 "ring"%string 7 = Raise ValueError.
Proof.
  split.
  - apply (pattern_returns_iff_known 3 7 "pairwise"%string); [lia|].
    simpl. tauto.
  - apply (pattern_returns_iff_known 3 7 "ring"%string); [lia|].
    simpl. intros H.
    repeat (destruct H as [H|H]; [discriminate H|]). exact H.
Defined.

(** *** Pairs name valid qubits *)

Lemma linear_in_range Q : Forall (fun p => in_range Q p /\ distinct p) (table_linear Q).
Proof.
  apply Forall_forall. intros p Hp. unfold table_linear in Hp.
  apply in_map_iff in Hp. destruct Hp as [i [<- Hi]].
  apply in_indices in Hi. unfold in_range, distinct. simpl. lia.
Qed.

Lemma swap_keeps_valid Q p :
  in_range Q p /\ distinct p -> in_range Q (pair_swap p) /\ distinct (pair_swap p).
Proof.
  unfold in_range, distinct, pair_swap. simpl. intuition.
Qed.

Lemma orient_keeps_in_range Q rep p : in_range Q p -> in_range Q (orient rep p).
Proof.
  unfold orient, in_range, pair_swap. destruct (Z.odd rep); simpl; tauto.
Qed.

Lemma orient_keeps_distinct rep p : distinct p -> distinct (orient rep p).
Proof.
  unfold orient, distinct, pair_swap. destruct (Z.odd rep); simpl; auto.
Qed.

Lemma in_rotate_right {A} (k : nat) (l : list A) (a : A) :
  In a (rotate_right k l) -> In a l.
Proof.
  unfold rotate_right. intros H. apply in_app_or in H.
  rewrite <- (firstn_skipn (List.length l - k) l).
  apply in_or_app. tauto.
Qed.

Lemma circular_in_range Q :
  1 <= Q -> Forall (in_range Q) (table_circular Q).
Proof.
  intros HQ. unfold table_circular. constructor.
  - unfold in_range. simpl. lia.
  - eapply Forall_impl; [|apply linear_in_range]. simpl. tauto.
Qed.

Lemma circular_distinct Q :
  2 <= Q -> Forall distinct (table_circular Q).
Proof.
  intros HQ. unfold table_circular. constructor.
  - unfold distinct. simpl. lia.
  - eapply Forall_impl; [|apply (linear_in_range Q)]. simpl. tauto.
Qed.

Lemma table_valid Q rep l :
  1 <= Q ->
  l = table_full Q \/ l = table_linear Q \/ l = table_reverse_linear Q \/
  l = table_pairwise Q \/ l = table_circular Q \/ l = sca_rotated_right Q rep ->
  Forall (in_range Q) l /\ (2 <= Q -> Forall distinct l).
Proof.
  intros HQ [->|[->|[->|[->|[->| ->]]]]].
  - split; [|intros _]; apply Forall_forall; intros [i j] Hp;
      apply in_table_full in Hp; unfold in_range, distinct; simpl; lia.
  - pose proof (linear_in_range Q) as H.
    split; [|intros _]; (eapply Forall_impl; [|exact H]); simpl; tauto.
  - assert (H : Forall (fun p => in_range Q p /\ distinct p)
                  (table_reverse_linear Q)).
    { unfold table_reverse_linear. apply Forall_rev.
      apply Forall_forall. intros p Hp. apply in_map_iff in Hp.
      destruct Hp as [q [<- Hq]]. apply swap_keeps_valid.
      pose proof (linear_in_range Q) as HL. rewrite Forall_forall in HL.
      now apply HL. }
    split; [|intros _]; (eapply Forall_impl; [|exact H]); simpl; tauto.
  - assert (H : Forall (fun p => in_range Q p /\ distinct p) (table_pairwise Q)).
    { unfold table_pairwise. apply Forall_app.
      pose proof (linear_in_range Q) as HL. rewrite Forall_forall in HL.
      split; apply Forall_forall; intros p Hp; apply filter_In in Hp;
        now apply HL. }
    split; [|intros _]; (eapply Forall_impl; [|exact H]); simpl; tauto.
  - split; [now apply circular_in_range|apply circular_distinct].
  - unfold sca_rotated_right. split; [|intros H2];
      apply Forall_forall; intros p Hp; apply in_map_iff in Hp;
      destruct Hp as [q [<- Hq]]; apply in_rotate_right in Hq.
    + apply orient_keeps_in_range.
      pose proof (circular_in_range Q HQ) as HC.
      rewrite Forall_forall in HC. now apply HC.
    + apply orient_keeps_distinct.
      pose proof (circular_distinct Q H2) as HC.
      rewrite Forall_forall in HC. now apply HC.
Qed.

(** X2. Every pair of every pattern names qubits of the register, and from two
    qubits on its two qubits differ, so each pair can carry a two-qubit
    gate. *)
Theorem pattern_pairs_are_qubits (Q rep : Z) (tag : string) (l : list (Z * Z)) :
  1 <= Q ->
  get_entanglement_pattern Q tag rep = Ok l ->
  Forall (in_range Q) l /\ (2 <= Q -> Forall distinct l).
Proof.
  intros HQ Hl.
  destruct (in_dec string_dec tag topologies) as [Hin|Hno].
  - destruct (pattern_value Q tag rep HQ Hin) as [l' [Hl' Hcase]].
    assert (l' = l) by congruence. subst l'.
    now apply (table_valid Q rep).
  - rewrite unknown_tag_raises in Hl by assumption. discriminate Hl.
Qed.

Lemma pattern_pairs_are_qubits_witness :
  Forall (in_range 5) [(4,3); (0,4); (1,0); (2,1); (3,2)] /\
  (2 <= 5 -> Forall distinct [(4,3); (0,4); (1,0); (2,1); (3,2)]).
Proof.
  apply (pattern_pairs_are_qubits 5 1 "sca"%string); [lia|reflexivity].
Defined.

(** X3. On a single qubit the circular and 'sca' patterns are the one pair
    (0,0), which names the same qubit twice, and the other four are empty;
    on no qubit at all circular still yields a pair. *)
Theorem degenerate_registers (Q rep : Z) :
  Q <= 1 ->
  get_entanglement_pattern Q "full"%string rep = Ok [] /\
  get_entanglement_pattern Q "linear"%string rep = Ok [] /\
  get_entanglement_pattern Q "reverse_linear"%string rep = Ok [] /\
  get_entanglement_pattern Q "pairwise"%string rep = Ok [] /\
  get_entanglement_pattern Q "circular"%string rep = Ok [(Q - 1, 0)] /\
  get_entanglement_pattern Q "sca"%string rep
    = Ok (if Q =? 1 then [(0, 0)] else []).
Proof.
  intros HQ.
  destruct (fixed_pattern_value Q rep) as [H1 [H2 [H3 [H4 H5]]]].
  assert (Hi : indices (Q - 1) = []).
  { unfold indices. replace (Z.to_nat (Q - 1)) with O by lia. reflexivity. }
  assert (HL : table_linear Q = []) by (unfold table_linear; now rewrite Hi).
  rewrite H1, H2, H3, H4, H5.
  unfold table_reverse_linear, table_pairwise, table_circular. rewrite HL.
  repeat split.
  - f_equal. destruct (table_full Q) as [|[i j] t] eqn:E; [reflexivity|].
    assert (Hp : In (i, j) (table_full Q)) by (rewrite E; now left).
    apply in_table_full in Hp. lia.
  - destruct (Z.eqb_spec Q 1) as [->|Hne].
    + rewrite sca_code_value by lia. f_equal.
      unfold sca_rotated_right, rotate_right, table_circular, orient, pair_swap.
      simpl. rewrite Z.mod_1_r. simpl. now destruct (Z.odd rep).
    + unfold get_entanglement_pattern.
      cbn [get_entanglement_pattern_rec String.eqb Ascii.eqb Bool.eqb bind app].
      rewrite !range_indices. unfold indices at 2.
      replace (Z.to_nat Q) with O by lia. cbn [seq map mapM bind].
      now destruct (rep mod 2 =? 1).
Qed.

(** *** Sizes and order *)

Lemma filter_split_permutation {A} (f g : A -> bool) (l : list A) :
  (forall a, g a = negb (f a)) ->
  Permutation (filter f l ++ filter g l) l.
Proof.
  intros Hg. induction l as [|a l IH]; [constructor|].
  simpl. rewrite Hg. destruct (f a); simpl.
  - now constructor.
  - apply Permutation_sym, Permutation_cons_app, Permutation_sym, IH.
Qed.

Lemma pairwise_permutes_linear Q :
  Permutation (table_pairwise Q) (table_linear Q).
Proof.
  unfold table_pairwise. apply filter_split_permutation.
  intros p. now rewrite Z.negb_even.
Qed.

Lemma length_table_linear Q :
  1 <= Q -> Z.of_nat (List.length (table_linear Q)) = Q - 1.
Proof.
  intros HQ. unfold table_linear. rewrite length_map, length_indices. lia.
Qed.

Lemma length_pairs_of_combinations {A} (l : list A) :
  (2 * List.length (pairs_of (combinations l 2))
   = List.length l * (List.length l - 1))%nat.
Proof.
  induction l as [|x t IH]; [reflexivity|].
  rewrite pairs_of_combinations_cons, length_app, length_map.
  cbn [List.length]. nia.
Qed.

(** X4. The 'pairwise' pattern holds the same pairs as 'linear', each once,
    in another order. *)
Theorem pairwise_reorders_linear (Q rep : Z) :
  exists pw lin,
    get_entanglement_pattern Q "pairwise"%string rep = Ok pw /\
    get_entanglement_pattern Q "linear"%string rep = Ok lin /\
    Permutation pw lin /\ NoDup lin /\ NoDup pw.
Proof.
  destruct (fixed_pattern_value Q rep) as [_ [H2 [_ [H4 _]]]].
  exists (table_pairwise Q), (table_linear Q).
  split; [exact H4|]. split; [exact H2|].
  pose proof (pairwise_permutes_linear Q) as HP.
  assert (HN : NoDup (table_linear Q)).
  { unfold table_linear, indices. rewrite map_map.
    apply Finite.Injective_map_NoDup; [|apply seq_NoDup].
    intros a b H. injection H as H _. lia. }
  split; [exact HP|]. split; [exact HN|].
  eapply Permutation_NoDup; [apply Permutation_sym; exact HP|exact HN].
Qed.

(** X5. How many pairs each pattern has on Q >= 1 qubits: Q(Q-1)/2 for 'full',
    Q-1 for 'linear', 'reverse_linear' and 'pairwise', Q for 'circular' and
    'sca'. *)
Theorem pattern_sizes (Q rep : Z) (tag : string) (l : list (Z * Z)) :
  1 <= Q ->
  get_entanglement_pattern Q tag rep = Ok l ->
  let n := Z.of_nat (List.length l) in
  (tag = "full"%string -> 2 * n = Q * (Q - 1)) /\
  (tag = "linear"%string \/ tag = "reverse_linear"%string \/
   tag = "pairwise"%string -> n = Q - 1) /\
  (tag = "circular"%string \/ tag = "sca"%string -> n = Q).
Proof.
  intros HQ Hl n.
  destruct (fixed_pattern_value Q rep) as [H1 [H2 [H3 [H4 H5]]]].
  pose proof (length_table_linear Q HQ) as HL.
  split; [|split].
  - intros ->. subst n. rewrite H1 in Hl. injection Hl as <-.
    rewrite <- full_code_table.
    pose proof (length_pairs_of_combinations (range Q)) as HC.
    rewrite range_indices, length_indices in HC.
    rewrite range_indices. nia.
  - intros [->|[->| ->]]; subst n.
    + rewrite H2 in Hl. injection Hl as <-. exact HL.
    + rewrite H3 in Hl. injection Hl as <-.
      unfold table_reverse_linear. now rewrite length_rev, length_map.
    + rewrite H4 in Hl. injection Hl as <-.
      now rewrite (Permutation_length (pairwise_permutes_linear Q)).
  - intros [->| ->]; subst n.
    + rewrite H5 in Hl. injection Hl as <-.
      rewrite length_table_circular by lia. lia.
    + rewrite sca_code_value in Hl by lia. injection Hl as <-.
      unfold sca_rotated_right.
      rewrite length_map, length_rotate_right, length_table_circular by lia.
      lia.
Qed.

Lemma pattern_sizes_witness :
  2 * Z.of_nat (List.length [(0,1); (0,2); (0,3); (1,2); (1,3); (2,3)])
  = 4 * (4 - 1).
Proof.
  apply (pattern_sizes 4 0 "full"%string
           [(0,1); (0,2); (0,3); (1,2); (1,3); (2,3)]);
    [lia|reflexivity|reflexivity].
Defined.

(** X6. The 'sca' pattern repeats with period 2Q in the repetition index, and
    at repetition 0 it is the circular pattern. *)
Theorem sca_is_periodic (Q rep : Z) :
  1 <= Q ->
  get_entanglement_pattern Q "sca"%string (rep + 2 * Q)
    = get_entanglement_pattern Q "sca"%string rep /\
  get_entanglement_pattern Q "sca"%string 0
    = get_entanglement_pattern Q "circular"%string 0.
Proof.
  intros HQ.
  destruct (fixed_pattern_value Q 0) as [_ [_ [_ [_ H5]]]].
  rewrite !sca_code_value, H5 by lia. split; f_equal.
  - unfold sca_rotated_right, orient.
    rewrite Z.odd_add_mul_2. now rewrite Z.mod_add by lia.
  - unfold sca_rotated_right, rotate_right, orient.
    rewrite Z.mod_0_l by lia. cbn [Z.to_nat Z.odd].
    rewrite Nat.sub_0_r, skipn_all, firstn_all, map_id. reflexivity.
Qed.

Lemma sca_is_periodic_witness :
  get_entanglement_pattern 3 "sca"%string (1 + 2 * 3)
    = get_entanglement_pattern 3 "sca"%string 1 /\
  get_entanglement_pattern 3 "sca"%string 0
    = get_entanglement_pattern 3 "circular"%string 0.
Proof. apply (sca_is_periodic 3 1). lia. Defined.

Lemma sorted_app {A} (R : A -> A -> Prop) (l1 l2 : list A) :
  StronglySorted R l1 -> StronglySorted R l2 ->
  (forall a b, In a l1 -> In b l2 -> R a b) ->
  StronglySorted R (l1 ++ l2).
Proof.
  induction 1 as [|a l1 Hs IH Ha]; intros H2 Hcross; [exact H2|].
  simpl. constructor.
  - apply IH; [exact H2|]. intros x y Hx Hy. apply Hcross; [now right|exact Hy].
  - apply Forall_app. split; [exact Ha|].
    apply Forall_forall. intros y Hy. apply Hcross; [now left|exact Hy].
Qed.

Lemma sorted_nodup {A} (R : A -> A -> Prop) (l : list A) :
  (forall a, ~ R a a) -> StronglySorted R l -> NoDup l.
Proof.
  intros Hirr. induction 1 as [|a l Hs IH Ha]; constructor; [|exact IH].
  intros Hin. rewrite Forall_forall in Ha. exact (Hirr a (Ha a Hin)).
Qed.

Lemma in_pairs_of_combinations (l : list Z) p :
  In p (pairs_of (combinations l 2)) -> In (fst p) l /\ In (snd p) l.
Proof.
  induction l as [|x t IH]; [intros []|].
  rewrite pairs_of_combinations_cons. intros H. apply in_app_or in H.
  destruct H as [H|H].
  - apply in_map_iff in H. destruct H as [b [<- Hb]]. simpl. tauto.
  - destruct (IH H). simpl. tauto.
Qed.

Lemma combinations_lex_sorted (l : list Z) :
  StronglySorted Z.lt l ->
  StronglySorted lex_lt (pairs_of (combinations l 2)).
Proof.
  induction 1 as [|x t Ht IH Hx]; [constructor|].
  rewrite pairs_of_combinations_cons. apply sorted_app; [|exact IH|].
  - clear IH Hx. induction Ht as [|y t Ht IHt Hy]; [constructor|].
    simpl. constructor; [exact IHt|].
    apply Forall_forall. intros q Hq. apply in_map_iff in Hq.
    destruct Hq as [z [<- Hz]]. rewrite Forall_forall in Hy.
    right. simpl. split; [reflexivity|now apply Hy].
  - intros a b Ha Hb. apply in_map_iff in Ha. destruct Ha as [y [<- _]].
    apply in_pairs_of_combinations in Hb. destruct Hb as [Hb _].
    rewrite Forall_forall in Hx. left. simpl. now apply Hx.
Qed.

(** X7. The 'full' pattern lists the pairs i<j below Q in strictly increasing
    lexicographic order: every such pair occurs, exactly once, and nothing
    else does. *)
Theorem full_is_sorted_and_complete (Q rep : Z) :
  exists l,
    get_entanglement_pattern Q "full"%string rep = Ok l /\
    StronglySorted lex_lt l /\ NoDup l /\
    forall i j, In (i, j) l <-> 0 <= i /\ i < j /\ j < Q.
Proof.
  destruct (fixed_pattern_value Q rep) as [H1 _].
  exists (table_full Q). split; [exact H1|].
  assert (HS : StronglySorted lex_lt (table_full Q)).
  { rewrite <- full_code_table, range_indices, <- upfrom_indices.
    apply combinations_lex_sorted, upfrom_sorted. }
  split; [exact HS|]. split; [|apply in_table_full].
  apply (sorted_nodup lex_lt); [|exact HS].
  intros a [H|[_ H]]; lia.
Qed.

Lemma degenerate_registers_witness :
  get_entanglement_pattern 1 "linear"%string 0 = Ok [] /\
  get_entanglement_pattern 1 "circular"%string 0 = Ok [(1 - 1, 0)] /\
  get_entanglement_pattern 1 "sca"%string 0
    = Ok (if 1 =? 1 then [(0, 0)] else []).
Proof.
  destruct (degenerate_registers 1 0) as [_ [H2 [_ [_ [H5 H6]]]]]; [lia|].
  split; [exact H2|]. split; [exact H5|exact H6].
Defined.

End EntanglementMore.

(** ** More on [AdaBoost] *)

Module BoostMore.
Import Py PyFacts Boost BoostFacts.
Open Scope R_scope.

(** *** Text *)

Example str_int_examples :
  str_int 50 = "50"%string /\ str_int 0 = "0"%string /\
  str_int 1234 = "1234"%string /\ str_int (-7) = "-7"%string.
Proof. repeat split. Qed.

Example to_repr_example :
  to_repr (fun _ => "clf"%string)
    (init [always 1%Z; always (-1)%Z] 50 1)
  = "AdaBoost(n_estimators=5, weak_classifiers=[clf, clf])"%string.
Proof. reflexivity. Qed.

Lemma digits_fuel f1 : forall f2 n,
  (0 <= n)%Z -> (Z.to_nat n < f1)%nat -> (Z.to_nat n < f2)%nat ->
  digits f1 n = digits f2 n.
Proof.
  induction f1 as [|f1 IH]; intros f2 n Hn H1 H2; [lia|].
  destruct f2 as [|f2]; [lia|]. simpl.
  destruct (Z.ltb_spec n 10); [reflexivity|].
  f_equal. assert (0 <= n / 10 < n)%Z.
  { split; [apply Z.div_pos; lia|apply Z.div_lt; lia]. }
  apply IH; lia.
Qed.

Lemma digits_S fuel n :
  digits (S fuel) n
  = if (n <? 10)%Z then String (digit_char n) ""
    else (digits fuel (n / 10) ++ String (digit_char (n mod 10)) "")%string.
Proof. reflexivity. Qed.

Lemma str_int_step n :
  (10 <= n)%Z ->
  str_int n
  = (str_int (n / 10) ++ String (digit_char (n mod 10)) "")%string.
Proof.
  intros Hn. unfold str_int.
  assert (0 <= n / 10 < n)%Z.
  { split; [apply Z.div_pos; lia|apply Z.div_lt; lia]. }
  destruct (Z.ltb_spec n 0); [lia|].
  destruct (Z.ltb_spec (n / 10) 0); [lia|].
  rewrite (digits_S (Z.to_nat n) n).
  destruct (Z.ltb_spec n 10); [lia|].
  f_equal. apply digits_fuel; lia.
Qed.

Lemma str_int_digit n :
  (0 <= n < 10)%Z -> str_int n = String (digit_char n) "".
Proof.
  intros Hn. unfold str_int.
  destruct (Z.ltb_spec n 0); [lia|]. cbn [digits].
  destruct (Z.ltb_spec n 10); [reflexivity|lia].
Qed.

Lemma take_app (a b : string) (k : nat) :
  take (String.length a + k) (a ++ b) = (a ++ take k b)%string.
Proof. induction a as [|c a IH]; simpl; [reflexivity|now rewrite IH]. Qed.

Lemma length_append (a b : string) :
  String.length (a ++ b) = (String.length a + String.length b)%nat.
Proof. induction a as [|c a IH]; simpl; [reflexivity|now rewrite IH]. Qed.

Lemma append_assoc (a b c : string) :
  ((a ++ b) ++ c = a ++ (b ++ c))%string.
Proof. induction a as [|x a IH]; simpl; [reflexivity|now rewrite IH]. Qed.

Lemma append_nil_r (a : string) : (a ++ "")%string = a.
Proof. induction a as [|x a IH]; simpl; [reflexivity|now rewrite IH]. Qed.

(** Cutting two characters off the end of "prefix + body + c + d". *)
Lemma drop_last_two_app (a : string) (c d : ascii) :
  drop_last_two (a ++ String c (String d "")) = a.
Proof.
  unfold drop_last_two. rewrite length_append. simpl.
  replace (String.length a + 2 - 2)%nat with (String.length a + 0)%nat by lia.
  rewrite take_app. simpl. apply append_nil_r.
Qed.

(** X13. The text of [__repr__] starts from [str(self)] without its last TWO
    characters, the closing parenthesis and the character before it: the
    last digit of n_estimators is lost (nothing is left of a one-digit
    number), then come the first five candidates and ", ..." when there
    are more. *)
Theorem repr_loses_last_digit (str_of : classifier -> string)
    (self : AdaBoost) :
  (0 <= n_estimators self)%Z ->
  to_repr str_of self
  = ("AdaBoost(n_estimators="
     ++ (if (n_estimators self <? 10)%Z then ""
         else str_int (n_estimators self / 10))
     ++ ", weak_classifiers=["
     ++ String.concat ", " (map str_of (firstn 5 (weak_classifiers self)))
     ++ (if (5 <? List.length (weak_classifiers self))%nat
         then ", ..." else "")
     ++ "])")%string.
Proof.
  intros Hn. unfold to_repr, to_str. cbv zeta.
  assert (Hcut :
    drop_last_two ("AdaBoost" ++ "(n_estimators="
                   ++ str_int (n_estimators self) ++ ")")
    = ("AdaBoost(n_estimators="
       ++ (if (n_estimators self <? 10)%Z then ""
           else str_int (n_estimators self / 10)))%string).
  { destruct (Z.ltb_spec (n_estimators self) 10) as [Hlt|Hge].
    - rewrite str_int_digit by lia.
      change ("AdaBoost" ++ "(n_estimators="
              ++ String (digit_char (n_estimators self)) "" ++ ")")%string
        with ("AdaBoost(n_estimators="
              ++ String (digit_char (n_estimators self)) (String ")" ""))%string.
      rewrite drop_last_two_app. now rewrite append_nil_r.
    - rewrite str_int_step by lia.
      replace ("AdaBoost" ++ "(n_estimators="
               ++ (str_int (n_estimators self / 10)
                   ++ String (digit_char (n_estimators self mod 10)) "")
               ++ ")")%string
        with (("AdaBoost(n_estimators=" ++ str_int (n_estimators self / 10))
              ++ String (digit_char (n_estimators self mod 10))
                   (String ")" ""))%string.
      + apply drop_last_two_app.
      + change ("AdaBoost" ++ "(n_estimators=" ++ ?x)%string
          with ("AdaBoost(n_estimators=" ++ x)%string.
        rewrite !append_assoc. reflexivity. }
  rewrite Hcut. rewrite !append_assoc. reflexivity.
Qed.

Lemma repr_loses_last_digit_witness :
  to_repr (fun _ => "clf"%string) (init [always 1%Z] 50 1)
  = ("AdaBoost(n_estimators="
     ++ (if (50 <? 10)%Z then "" else str_int (50 / 10))
     ++ ", weak_classifiers=["
     ++ String.concat ", " (map (fun _ => "clf") (firstn 5 [always 1%Z]))
     ++ (if (5 <? 1)%nat then ", ..." else "")
     ++ "])")%string.
Proof.
  apply (repr_loses_last_digit (fun _ => "clf"%string) (init [always 1%Z] 50 1)).
  simpl. lia.
Defined.

(** *** [score] *)

Lemma count_true_le mask : (count_true mask <= List.length mask)%nat.
Proof. unfold count_true. apply filter_length_le. Qed.

Lemma count_true_all mask :
  count_true mask = List.length mask <-> Forall (fun b => b = true) mask.
Proof.
  unfold count_true. induction mask as [|b mask IH]; simpl.
  - split; [constructor|reflexivity].
  - pose proof (filter_length_le (fun b => b) mask) as Hle.
    destruct b; simpl; split; intros H.
    + constructor; [reflexivity|]. apply IH. lia.
    + inversion H; subst. f_equal. now apply IH.
    + lia.
    + inversion H; discriminate.
Qed.

Lemma equal_everywhere (out y : labels) :
  List.length out = List.length y ->
  (Forall (fun b => b = true)
     (map (fun py : Z * Z => (fst py =? snd py)%Z) (combine out y))
   <-> out = y).
Proof.
  revert y. induction out as [|a out IH]; intros [|b y] Hlen;
    simpl in *; try lia.
  - split; [reflexivity|constructor].
  - split; intros H.
    + inversion H as [|? ? Hab Hrest]; subst.
      apply Z.eqb_eq in Hab. subst b. f_equal. apply IH; [lia|exact Hrest].
    + injection H as -> ->. constructor; [apply Z.eqb_refl|].
      apply IH; [lia|reflexivity].
Qed.

Lemma mean_value mask :
  mask <> [] ->
  mean mask = Finite (INR (count_true mask) / INR (List.length mask)).
Proof. destruct mask; [contradiction|reflexivity]. Qed.

(** X11. When [predict] answers with one label per entry of a non-empty [y],
    [score] is the number of positions where they agree divided by the
    number of samples: a number between 0 and 1, equal to 1 exactly when
    the prediction is [y].  Stated in exact arithmetic. *)
Theorem score_is_accuracy (self : AdaBoost) (X : matrix) (y out : labels) :
  predict self X = Ok (Vector out) ->
  List.length out = List.length y ->
  y <> [] ->
  exists acc,
    score self X y = Ok (Finite acc) /\
    0 <= acc <= 1 /\
    acc * INR (List.length y)
      = INR (count_true (map (fun py : Z * Z => (fst py =? snd py)%Z)
                             (combine out y))) /\
    (acc = 1 <-> out = y).
Proof.
  intros Hp Hlen Hy.
  set (mask := map (fun py : Z * Z => (fst py =? snd py)%Z) (combine out y)).
  assert (Hm : List.length mask = List.length y).
  { unfold mask. rewrite length_map, length_combine. lia. }
  assert (Hn : (1 <= List.length y)%nat) by (destruct y; [contradiction|simpl; lia]).
  assert (Hpos : 0 < INR (List.length y)) by (apply lt_0_INR; lia).
  assert (Hne : mask <> []) by (intros E; rewrite E in Hm; simpl in Hm; lia).
  exists (INR (count_true mask) / INR (List.length y)).
  split.
  { unfold score. rewrite Hp. cbn [bind]. unfold equal_mask.
    rewrite (proj2 (Nat.eqb_eq _ _) Hlen). cbn [bind]. fold mask.
    now rewrite mean_value, Hm by assumption. }
  pose proof (count_true_le mask) as Hle. rewrite Hm in Hle.
  apply le_INR in Hle. pose proof (pos_INR (count_true mask)) as H0.
  split; [|split].
  - split.
    + apply Rle_mult_inv_pos; assumption.
    + apply Rmult_le_reg_r with (r := INR (List.length y)); [exact Hpos|].
      unfold Rdiv. rewrite Rmult_assoc, Rinv_l by lra. lra.
  - unfold Rdiv. rewrite Rmult_assoc, Rinv_l by lra. lra.
  - rewrite <- (equal_everywhere out y Hlen). fold mask.
    rewrite <- count_true_all, Hm. split; intros H.
    + apply INR_eq. apply Rmult_eq_reg_r with (r := / INR (List.length y)).
      * rewrite Rinv_r by lra. exact H.
      * apply Rinv_neq_0_compat. lra.
    + rewrite H. unfold Rdiv. apply Rinv_r. lra.
Qed.

Lemma score_is_accuracy_witness :
  let self := mk_AdaBoost [always 1%Z] 50 1 [1] [always 1%Z] in
  exists acc,
    score self one_sample one_label = Ok (Finite acc) /\
    0 <= acc <= 1 /\
    (acc = 1 <-> [1%Z] = one_label).
Proof.
  intros self.
  destruct (score_is_accuracy self one_sample one_label [1%Z])
    as [acc [H1 [H2 [_ H4]]]].
  - unfold predict. simpl. unfold vote.
    match goal with
    | |- context [Rlt_dec 0 ?s] => destruct (Rlt_dec 0 s) as [H|H]
    end; [reflexivity|exfalso; apply H].
    cbv [dot_column column np_dot exact dot sum map combine fold_right
         fst snd nth always one_sample].
    lra.
  - reflexivity.
  - discriminate.
  - exists acc. split; [exact H1|]. split; [exact H2|exact H4].
Defined.

Lemma count_minus_ones (y : labels) :
  count_true (map (fun yi => ((-1) =? yi)%Z) y) = count_occ Z.eq_dec y (-1)%Z.
Proof.
  unfold count_true. induction y as [|yi y IH]; [reflexivity|].
  cbn [map filter count_occ].
  destruct (Z.eqb_spec (-1) yi) as [<-|Hne].
  - destruct (Z.eq_dec (-1) (-1)); [|congruence].
    cbn [List.length]. now rewrite IH.
  - destruct (Z.eq_dec yi (-1)); [congruence|exact IH].
Qed.

(** X12. On an ensemble without records [score] does not fail either: the
    0-dimensional prediction -1 is compared with every label, so the score
    is the share of labels equal to -1 (and nan for an empty [y]).
    Stated in exact arithmetic. *)
Theorem score_without_records (self : AdaBoost) (X : matrix) (y : labels) :
  alphas self = [] -> selected_classifiers self = [] ->
  (1 <= num_workers self)%Z ->
  (y = [] -> score self X y = Ok NaN) /\
  (y <> [] ->
   score self X y
   = Ok (Finite (INR (count_occ Z.eq_dec y (-1)%Z) / INR (List.length y)))).
Proof.
  intros Ha Hs Hw. unfold score.
  rewrite predict_empty_value by assumption. cbn [bind equal_mask].
  split.
  - intros ->. reflexivity.
  - intros Hy. rewrite mean_value by (destruct y; [contradiction|discriminate]).
    now rewrite count_minus_ones, length_map.
Qed.

Lemma score_without_records_witness :
  score (init [always 1%Z] 0 1) one_sample [(-1)%Z; 1%Z; (-1)%Z]
  = Ok (Finite (INR (count_occ Z.eq_dec [(-1)%Z; 1%Z; (-1)%Z] (-1)%Z)
                / INR (List.length [(-1)%Z; 1%Z; (-1)%Z]))).
Proof.
  apply (score_without_records (init [always 1%Z] 0 1) one_sample
           [(-1)%Z; 1%Z; (-1)%Z]);
    [reflexivity | reflexivity | simpl; lia | discriminate].
Defined.

(** *** The selection in a round *)

Lemma first_min_first t : forall x d j,
  (j < fst (first_min x t))%nat ->
  snd (first_min x t) < nth j (x :: t) d.
Proof.
  induction t as [|x' t IH]; intros x d j Hj; [simpl in Hj; lia|].
  cbn [first_min] in *. specialize (IH x' d).
  destruct (first_min x' t) as [i m]. cbn [fst snd] in IH.
  destruct (Rle_dec x m) as [Hle|Hgt]; cbn [fst snd] in *; [lia|].
  destruct j as [|j]; [simpl; lra|]. apply IH. lia.
Qed.

(** What a completed round has done, in any arithmetic. *)
Lemma round_completed_any {fl : arithmetic} wcs X y w w' alpha clf :
  boost_round wcs X y w = Ok (Completed w' alpha clf) ->
  exists m i,
    min_weighted_error wcs X y w = Some m /\ m < 1 /\
    alpha = fmul 0.5 (np_log (fdiv (fsub 1 m) (fadd m (literal 1e-10)))) /\
    nth_error wcs i = Some clf /\
    masked_sum w y (clf X) = m /\
    (forall j clf', (j < i)%nat -> nth_error wcs j = Some clf' ->
       m < masked_sum w y (clf' X)) /\
    w' = normalize (reweigh alpha w y (clf X)).
Proof.
  intros Hround. destruct wcs as [|c cs]; [discriminate Hround|].
  rewrite boost_round_any in Hround.
  pose proof (best_candidate_error c cs X y w) as [Herr Hin].
  cbv zeta in Hround, Herr, Hin.
  set (errors := weighted_errors (c :: cs) X y w) in *.
  assert (He : errors = hd 0 errors :: tl errors) by reflexivity.
  assert (Hlen : List.length errors = List.length (c :: cs))
    by (unfold errors, weighted_errors; now rewrite length_map).
  pose proof (first_min_lt (tl errors) (hd 0 errors)) as Hi.
  pose proof (first_min_first (tl errors) (hd 0 errors) 0) as Hfirst.
  rewrite first_min_snd, <- He in Hfirst.
  set (m := list_min _ _) in *. set (i := fst _) in *.
  assert (Hi' : (i < List.length (c :: cs))%nat).
  { rewrite <- Hlen, He. exact Hi. }
  assert (Hmin : min_weighted_error (c :: cs) X y w = Some m) by reflexivity.
  clearbody i m.
  destruct (Rle_dec 1 m) as [|Hlt]; [discriminate Hround|].
  injection Hround as <- <- <-.
  exists m, i. split; [exact Hmin|]. split; [lra|]. split; [reflexivity|].
  split; [exact (nth_error_nth' (c :: cs) c Hi')|]. split; [exact Herr|].
  split; [|reflexivity].
  intros j clf' Hj Hnth. specialize (Hfirst j Hj).
  unfold errors, weighted_errors in Hfirst.
  assert (Hj' : (j < List.length (c :: cs))%nat) by lia.
  rewrite (nth_error_nth' _ c Hj') in Hnth. injection Hnth as <-.
  rewrite nth_indep with (d' := masked_sum w y (c X)) in Hfirst
    by (rewrite length_map; exact Hj').
  now rewrite (map_nth (fun clf => masked_sum w y (clf X))) in Hfirst.
Qed.

(** The same in exact arithmetic, where the weight is [alpha_of]. *)
Lemma round_completed_inv wcs X y w w' alpha clf :
  boost_round wcs X y w = Ok (Completed w' alpha clf) ->
  exists m i,
    min_weighted_error wcs X y w = Some m /\ m < 1 /\
    alpha = alpha_of m /\
    nth_error wcs i = Some clf /\
    masked_sum w y (clf X) = m /\
    (forall j clf', (j < i)%nat -> nth_error wcs j = Some clf' ->
       m < masked_sum w y (clf' X)) /\
    w' = normalize (reweigh alpha w y (clf X)).
Proof.
  intros Hround.
  destruct (round_completed_any _ _ _ _ _ _ _ Hround)
    as [m [i [H1 [H2 [H3 H4]]]]].
  exists m, i. split; [exact H1|]. split; [exact H2|].
  split; [|exact H4]. now rewrite H3, alpha_of_value.
Qed.

(** X14. A completed round selects the first candidate of minimum weighted
    error: no candidate has a smaller error and every candidate before it
    in the list has a strictly larger one (the errors as the arithmetic in
    use computes them). *)
Theorem first_best_candidate_wins {fl : arithmetic} (wcs : list classifier)
    (X : matrix) (y : labels) (w w' : list R) (alpha : R)
    (clf : classifier) :
  boost_round wcs X y w = Ok (Completed w' alpha clf) ->
  exists i,
    nth_error wcs i = Some clf /\
    (forall clf', In clf' wcs ->
       masked_sum w y (clf X) <= masked_sum w y (clf' X)) /\
    (forall j clf', (j < i)%nat -> nth_error wcs j = Some clf' ->
       masked_sum w y (clf X) < masked_sum w y (clf' X)).
Proof.
  intros Hround.
  destruct (round_completed_any _ _ _ _ _ _ _ Hround)
    as [m [i [Hmin [_ [_ [Hnth [Herr [Hfirst _]]]]]]]].
  exists i. split; [exact Hnth|]. rewrite Herr. split; [|exact Hfirst].
  intros clf' Hin.
  destruct (min_weighted_error_is_min _ _ _ _ _ Hmin) as [_ Hall].
  rewrite Forall_forall in Hall. apply Hall.
  unfold weighted_errors. apply in_map_iff. now exists clf'.
Qed.

Lemma first_best_candidate_wins_witness :
  exists i,
    nth_error [always 1%Z; always 1%Z] i = Some (always 1%Z) /\
    (forall j clf', (j < i)%nat ->
       nth_error [always 1%Z; always 1%Z] j = Some clf' ->
       masked_sum [1] one_label (always 1%Z one_sample)
       < masked_sum [1] one_label (clf' one_sample)).
Proof.
  assert (Hround : exists w' alpha,
    boost_round [always 1%Z; always 1%Z] one_sample one_label [1]
    = Ok (Completed w' alpha (always 1%Z))).
  { rewrite boost_round_value. cbv zeta.
    match goal with
    | |- context [Rle_dec 1 ?m] => destruct (Rle_dec 1 m) as [Hle|Hgt]
    end.
    - exfalso.
      cbv [weighted_errors always one_sample one_label map masked_sum
           misclassified np_sum exact sum fold_right
           list_min hd tl Z.eqb Pos.eqb Rmin] in Hle.
      destruct (Rle_dec 0 0); lra.
    - match goal with
      | |- context [nth ?i _ _] =>
          assert (Hn : nth i [always 1%Z; always 1%Z] (always 1%Z) = always 1%Z)
            by (destruct i as [|[|[|?]]]; reflexivity);
          rewrite !Hn
      end.
      eexists. eexists. reflexivity. }
  destruct Hround as [w' [alpha Hround]].
  destruct (first_best_candidate_wins _ _ _ _ _ _ _ Hround)
    as [i [Hnth [_ Hfirst]]].
  exists i. split; [exact Hnth|exact Hfirst].
Defined.

(** *** Errors, the early exit and the sign of alpha *)

Lemma masked_sum_bounds w : forall y preds,
  Forall (fun wi => 0 <= wi) w ->
  0 <= masked_sum w y preds <= sum w.
Proof.
  unfold masked_sum. exact_arith.
  induction w as [|wi w IH]; intros [|yi y] [|pi preds] H;
    cbn [misclassified];
    try (pose proof (sum_nonneg _ H) as Hs; simpl in *; lra).
  inversion H as [|? ? Hwi Hw]; subst. specialize (IH y preds Hw).
  destruct (yi =? pi)%Z; simpl in *; lra.
Qed.


Lemma round_on_candidates c cs X y w :
  exists m, min_weighted_error (c :: cs) X y w = Some m /\
    ((1 <= m /\ boost_round (c :: cs) X y w = Ok Break) \/
     (m < 1 /\ exists w' clf,
        boost_round (c :: cs) X y w = Ok (Completed w' (alpha_of m) clf))).
Proof.
  rewrite boost_round_value, min_weighted_error_cons. cbv zeta.
  set (m := list_min _ _). exists m. split; [reflexivity|].
  destruct (Rle_dec 1 m).
  - left. split; [assumption|reflexivity].
  - right. split; [lra|]. eexists. eexists. reflexivity.
Qed.



Lemma ln_pos_iff x : 0 < x -> (0 < ln x <-> 1 < x).
Proof.
  intros Hx. rewrite <- ln_1. split.
  - apply ln_lt_inv; lra.
  - apply ln_increasing. lra.
Qed.


Lemma alpha_of_zero : alpha_of 0 = 5 * ln 10.
Proof.
  unfold alpha_of.
  replace ((1 - 0) / (0 + / 10 ^ 10)) with (10 ^ 10).
  - rewrite ln_pow by lra. simpl INR. lra.
  - unfold Rdiv. rewrite Rplus_0_l, Rinv_inv. lra.
Qed.



(** X17. [fit] never touches the candidate list, n_estimators or num_workers,
    whether it returns or raises. *)
Theorem fit_keeps_configuration {fl : arithmetic} (self : AdaBoost)
    (X : matrix) (y : labels) :
  weak_classifiers (fst (fit self X y)) = weak_classifiers self /\
  n_estimators (fst (fit self X y)) = n_estimators self /\
  num_workers (fst (fit self X y)) = num_workers self.
Proof.
  rewrite fit_value. cbn [fst]. unfold fit_run.
  destruct (fit_loop (Z.to_nat (n_estimators self)) self X y
              (initial_weights X)) as [[self' w'] r] eqn:H.
  apply fit_loop_records in H. cbn [fst]. tauto.
Qed.

(** *** A perfect candidate *)

Lemma masked_sum_self w : forall y, masked_sum w y y = 0.
Proof.
  unfold masked_sum. exact_arith.
  induction w as [|wi w IH]; intros [|yi y]; cbn [misclassified];
    try reflexivity.
  now rewrite Z.eqb_refl.
Qed.

Lemma zero_error_agrees w : forall y preds,
  Forall (fun wi => 0 < wi) w ->
  List.length y = List.length w -> List.length preds = List.length w ->
  masked_sum w y preds = 0 -> preds = y.
Proof.
  induction w as [|wi w IH]; intros [|yi y] [|pi preds] Hpos Hy Hp H0;
    simpl in Hy, Hp; try lia; [reflexivity|].
  inversion Hpos as [|? ? Hwi Hw]; subst.
  assert (Hnn : Forall (fun v => 0 <= v) w).
  { eapply Forall_impl; [|exact Hw]. simpl. intros; lra. }
  pose proof (masked_sum_bounds w y preds Hnn) as [Hlo _].
  unfold masked_sum in *. exact_arith. cbn [misclassified] in H0.
  destruct (Z.eqb_spec yi pi) as [->|Hne].
  - f_equal. apply IH; [assumption|lia|lia|exact H0].
  - exfalso. unfold sum in *. cbn [fold_right] in H0. lra.
Qed.

Lemma reweigh_agree alpha w : forall y,
  binary y -> List.length y = List.length w ->
  reweigh alpha w y y = map (fun wi => wi * exp (- alpha)) w.
Proof.
  induction w as [|wi w IH]; intros [|yi y] Hb Hlen; simpl in *;
    try lia; [reflexivity|].
  inversion Hb as [|? ? Hyi Hy]; subst.
  rewrite IH by (assumption || lia). f_equal. f_equal. f_equal.
  destruct Hyi as [-> | ->]; lra.
Qed.

Lemma sum_map_scale c w : sum (map (fun wi => wi * c) w) = sum w * c.
Proof. induction w as [|wi w IH]; simpl; [lra|rewrite IH; lra]. Qed.

Lemma normalize_scale c w :
  c <> 0 -> sum w = 1 -> normalize (map (fun wi => wi * c) w) = w.
Proof.
  intros Hc Hs. unfold normalize. exact_arith.
  rewrite sum_map_scale, Hs, map_map, Rmult_1_l.
  rewrite <- (map_id w) at 2. apply map_ext. intros wi.
  unfold Rdiv. rewrite Rmult_assoc, Rinv_r by exact Hc. lra.
Qed.

Lemma initial_weights_positive X :
  (1 <= List.length X)%nat -> Forall (fun wi => 0 < wi) (initial_weights X).
Proof.
  intros Hn. unfold initial_weights. exact_arith.
  assert (Hpos : 0 < INR (List.length X)) by (apply lt_0_INR; lia).
  apply Forall_forall. intros v Hv. apply in_map_iff in Hv.
  destruct Hv as [one [<- Hin]]. apply repeat_spec in Hin. subst one.
  apply Rdiv_lt_0_compat; lra.
Qed.

(** With a candidate that predicts [y] itself, a round on positive weights
    selects a candidate doing so, records alpha_of 0 and leaves the weights
    as they were. *)
Lemma round_perfect wcs X y w :
  valid_data wcs X y -> binary y ->
  (exists p, In p wcs /\ p X = y) ->
  Forall (fun wi => 0 < wi) w -> sum w = 1 ->
  List.length w = List.length X ->
  exists clf,
    boost_round wcs X y w = Ok (Completed w (alpha_of 0) clf) /\
    clf X = y /\ In clf wcs.
Proof.
  intros [Hn [Hy Hall]] Hb [p [Hp Hpy]] Hpos Hsum Hlen.
  assert (Hnn : Forall (fun v => 0 <= v) w).
  { eapply Forall_impl; [|exact Hpos]. simpl. intros; lra. }
  destruct wcs as [|c cs]; [destruct Hp|].
  destruct (round_on_candidates c cs X y w) as [m [Hmin Hcase]].
  destruct (min_weighted_error_is_min _ _ _ _ _ Hmin) as [Hin Hle].
  unfold weighted_errors in Hin, Hle. rewrite Forall_forall in Hle.
  assert (Hm0 : m = 0).
  { apply in_map_iff in Hin. destruct Hin as [b [Hb' _]].
    pose proof (masked_sum_bounds w y (b X) Hnn) as [Hlo _].
    assert (m <= masked_sum w y (p X))
      by (apply Hle, in_map_iff; now exists p).
    rewrite Hpy, masked_sum_self in H. lra. }
  subst m. destruct Hcase as [[H1 _]|[_ [w' [clf Hround]]]]; [lra|].
  destruct (round_completed_inv _ _ _ _ _ _ _ Hround)
    as [m [i [Hmin' [_ [_ [Hnth [Herr [_ Hw']]]]]]]].
  assert (Hm : m = 0) by congruence. rewrite Hm in Herr.
  apply nth_error_In in Hnth.
  rewrite Forall_forall in Hall. pose proof (Hall clf Hnth) as Hclen.
  assert (Hclf : clf X = y).
  { apply (zero_error_agrees w); [assumption|lia|lia|exact Herr]. }
  exists clf. split; [|split; assumption].
  rewrite Hround. f_equal. f_equal.
  rewrite Hw', Hclf, reweigh_agree by (assumption || lia).
  apply normalize_scale; [|exact Hsum].
  pose proof (exp_pos (- alpha_of 0)). lra.
Qed.

Lemma fit_loop_perfect wcs X y w rounds :
  valid_data wcs X y -> binary y ->
  (exists p, In p wcs /\ p X = y) ->
  Forall (fun wi => 0 < wi) w -> sum w = 1 ->
  List.length w = List.length X ->
  forall self, weak_classifiers self = wcs ->
  exists self' new_clfs,
    fit_loop rounds self X y w = (self', w, Ok tt) /\
    alphas self' = alphas self ++ repeat (alpha_of 0) rounds /\
    selected_classifiers self' = selected_classifiers self ++ new_clfs /\
    List.length new_clfs = rounds /\
    Forall (fun clf => clf X = y) new_clfs.
Proof.
  intros Hv Hb Hp Hpos Hsum Hlen.
  induction rounds as [|rounds IH]; intros self Hw.
  - exists self, []. rewrite !app_nil_r. repeat split. constructor.
  - destruct (round_perfect wcs X y w Hv Hb Hp Hpos Hsum Hlen)
      as [clf [Hround [Hclf _]]].
    destruct (IH (append_record self (alpha_of 0) clf) Hw)
      as [self' [new [Hrun [Ha [Hs [Hl Hall]]]]]].
    exists self', (clf :: new). cbn [fit_loop]. rewrite Hw, Hround.
    split; [exact Hrun|]. simpl in Ha, Hs.
    rewrite Ha, Hs, <- !app_assoc. simpl.
    repeat split; [lia|]. now constructor.
Qed.

(** X18. With a candidate that predicts the labels exactly, on valid data with
    labels +1/-1, [fit] completes all its rounds: every record it appends
    has weight 5 ln 10 and a classifier that predicts the labels exactly,
    and the sample weights never move from uniform.
    Stated in exact arithmetic. *)
Theorem perfect_candidate_fit (self : AdaBoost) (X : matrix) (y : labels) :
  valid_data (weak_classifiers self) X y -> binary y ->
  (exists p, In p (weak_classifiers self) /\ p X = y) ->
  exists self' new_clfs,
    fit_run self X y = (self', initial_weights X, Ok tt) /\
    fit self X y = (self', Ok tt) /\
    alphas self'
      = alphas self ++ repeat (5 * ln 10) (Z.to_nat (n_estimators self)) /\
    selected_classifiers self' = selected_classifiers self ++ new_clfs /\
    List.length new_clfs = Z.to_nat (n_estimators self) /\
    Forall (fun clf => clf X = y) new_clfs.
Proof.
  intros Hv Hb Hp. pose proof Hv as [Hn _].
  destruct (fit_loop_perfect (weak_classifiers self) X y (initial_weights X)
              (Z.to_nat (n_estimators self)) Hv Hb Hp
              (initial_weights_positive X Hn)
              (proj2 (initial_weights_distribution X Hn))
              (length_initial_weights X) self eq_refl)
    as [self' [new [Hrun [Ha [Hs [Hl Hall]]]]]].
  exists self', new. rewrite fit_value. unfold fit_run. rewrite Hrun.
  rewrite <- alpha_of_zero. repeat split; assumption.
Qed.

Lemma perfect_candidate_fit_witness :
  let self := init [always (-1)%Z; always 1%Z] 3 1 in
  exists self' new_clfs,
    fit self one_sample one_label = (self', Ok tt) /\
    alphas self' = alphas self ++ repeat (5 * ln 10) (Z.to_nat 3) /\
    selected_classifiers self' = selected_classifiers self ++ new_clfs /\
    Forall (fun clf => clf one_sample = one_label) new_clfs.
Proof.
  intros self.
  destruct (perfect_candidate_fit self one_sample one_label)
    as [self' [new [_ [H1 [H2 [H3 [_ H5]]]]]]].
  - split; [simpl; lia|]. split; [reflexivity|]. repeat constructor.
  - repeat constructor.
  - exists (always 1%Z). split; [simpl; tauto|reflexivity].
  - exists self', new. repeat split; assumption.
Defined.

Lemma dot_column_perfect a y j X : forall sel,
  Forall (fun clf : classifier => clf X = y) sel ->
  dot_column (repeat a (List.length sel)) (map (fun clf => clf X) sel) j
  = INR (List.length sel) * a * IZR (nth j y 0%Z).
Proof.
  induction sel as [|c sel IH]; intros Hall.
  - cbv [dot_column column np_dot exact dot sum List.length repeat map
         combine fold_right INR].
    lra.
  - inversion Hall as [|? ? Hc Hrest]; subst.
    change (dot_column (repeat a (List.length (c :: sel)))
              (map (fun clf => clf X) (c :: sel)) j)
      with (a * IZR (nth j (c X) 0%Z)
            + dot_column (repeat a (List.length sel))
                (map (fun clf => clf X) sel) j).
    cbn [List.length]. rewrite S_INR, IH by exact Hrest. lra.
Qed.

Lemma vote_of_label a n v :
  0 < a -> (1 <= n)%nat -> v = 1%Z \/ v = (-1)%Z ->
  vote (INR n * a * IZR v) = v.
Proof.
  intros Ha Hn Hv.
  assert (Hpos : 0 < INR n * a).
  { apply Rmult_lt_0_compat; [apply lt_0_INR; lia|exact Ha]. }
  destruct (vote_spec (INR n * a * IZR v)) as [H1 H2].
  destruct Hv as [-> | ->].
  - apply H1. lra.
  - apply H2. lra.
Qed.

Lemma map_nth_seq (y : labels) (f : nat -> Z) :
  (forall j, (j < List.length y)%nat -> f j = nth j y 0%Z) ->
  map f (seq 0 (List.length y)) = y.
Proof.
  intros Hf. apply nth_ext with (d := 0%Z) (d' := 0%Z).
  - now rewrite length_map, length_seq.
  - intros j Hj. rewrite length_map, length_seq in Hj.
    rewrite nth_map_seq_Z by exact Hj. now apply Hf.
Qed.

Lemma score_exact self X y :
  predict self X = Ok (Vector y) -> y <> [] ->
  score self X y = Ok (Finite 1).
Proof.
  intros Hp Hy. unfold score. rewrite Hp. cbn [bind equal_mask].
  rewrite Nat.eqb_refl. cbn [bind].
  set (mask := map _ _).
  assert (Hm : List.length mask = List.length y).
  { unfold mask. rewrite length_map, length_combine. lia. }
  assert (Hne : mask <> []).
  { intros E. rewrite E in Hm. destruct y; [contradiction|discriminate]. }
  rewrite mean_value by exact Hne.
  assert (Hall : count_true mask = List.length mask).
  { apply count_true_all. unfold mask. now apply equal_everywhere. }
  rewrite Hall. do 2 f_equal. unfold Rdiv. apply Rinv_r.
  apply not_0_INR. rewrite Hm. destruct y; [contradiction|discriminate].
Qed.

Lemma ln_10_pos : 0 < ln 10.
Proof. apply ln_pos_iff; lra. Qed.

(** X19. A fresh ensemble with a candidate that predicts the labels exactly,
    fitted for at least one round on valid data with labels +1/-1, predicts
    exactly the labels on the training data and scores 1.
    Stated in exact arithmetic. *)
Theorem perfect_candidate_learns (wcs : list classifier) (n workers : Z)
    (X : matrix) (y : labels) :
  valid_data wcs X y -> binary y ->
  (exists p, In p wcs /\ p X = y) ->
  (1 <= n)%Z -> (1 <= workers)%Z ->
  let fitted := fit (init wcs n workers) X y in
  snd fitted = Ok tt /\
  List.length (alphas (fst fitted)) = Z.to_nat n /\
  predict (fst fitted) X = Ok (Vector y) /\
  score (fst fitted) X y = Ok (Finite 1).
Proof.
  intros Hv Hb Hp Hn Hw fitted.
  pose proof Hv as [Hlen [Hy _]].
  destruct (fit_loop_perfect wcs X y (initial_weights X) (Z.to_nat n) Hv Hb Hp
              (initial_weights_positive X Hlen)
              (proj2 (initial_weights_distribution X Hlen))
              (length_initial_weights X) (init wcs n workers) eq_refl)
    as [self' [new [Hrun [Ha [Hs [Hl Hall]]]]]].
  assert (Hfit : fitted = (self', Ok tt)).
  { unfold fitted. rewrite fit_value. unfold fit_run.
    change (n_estimators (init wcs n workers)) with n. now rewrite Hrun. }
  rewrite Hfit. cbn [fst snd]. simpl in Ha, Hs.
  assert (Hworkers : num_workers self' = workers).
  { apply fit_loop_records in Hrun. tauto. }
  assert (Hpred : predict self' X = Ok (Vector y)).
  { rewrite clf_preds_value by lia. rewrite Ha, Hs.
    destruct new as [|c new'] eqn:Hnew; [simpl in Hl; lia|].
    rewrite <- Hnew in *. clear Hnew.
    assert (Hrows : map (fun clf => clf X) new
                    = y :: map (fun clf => clf X) (tl new)).
    { destruct new as [|c0 new0]; [simpl in Hl; lia|].
      inversion Hall; subst. simpl. now f_equal. }
    rewrite Hrows, weighted_vote_rows.
    - f_equal. f_equal. apply map_nth_seq.
      intros j Hj.
      pose proof (dot_column_perfect (alpha_of 0) y j X new Hall) as Hd.
      rewrite Hrows, Hl in Hd. unfold labels in *. rewrite Hd.
      apply vote_of_label.
      + rewrite alpha_of_zero. pose proof ln_10_pos. lra.
      + lia.
      + unfold binary in Hb. rewrite Forall_forall in Hb.
        apply Hb, nth_In. exact Hj.
    - rewrite repeat_length, <- Hl.
      destruct new; [simpl in Hl; lia|]. simpl. now rewrite length_map.
    - unfold labels in *. rewrite <- Hrows.
      apply Forall_forall. intros q Hq.
      apply in_map_iff in Hq. destruct Hq as [clf [<- Hin]].
      rewrite Forall_forall in Hall. now rewrite (Hall clf Hin). }
  split; [reflexivity|]. split; [rewrite Ha, repeat_length; reflexivity|].
  split; [exact Hpred|].
  apply score_exact; [exact Hpred|].
  intros ->. simpl in Hy. lia.
Qed.

Lemma perfect_candidate_learns_witness :
  let fitted := fit (init [always (-1)%Z; always 1%Z] 3 1)
                    one_sample one_label in
  snd fitted = Ok tt /\
  List.length (alphas (fst fitted)) = Z.to_nat 3 /\
  predict (fst fitted) one_sample = Ok (Vector one_label) /\
  score (fst fitted) one_sample one_label = Ok (Finite 1).
Proof.
  apply (perfect_candidate_learns [always (-1)%Z; always 1%Z] 3 1
           one_sample one_label).
  - split; [simpl; lia|]. split; [reflexivity|]. repeat constructor.
  - repeat constructor.
  - exists (always 1%Z). split; [simpl; tauto|reflexivity].
  - lia.
  - lia.
Defined.

End BoostMore.

(** ** More on [VectorizeKernel] *)

Module VectorizeMore.
Import Py PyFacts Vectorize VectorizeFacts.

Lemma gram_entry {float} (k : nat -> nat -> float) (N M i j : nat) :
  (i < N)%nat -> (j < M)%nat ->
  entry (mk_ndarray [N; M]
           (List.concat (map (fun i => map (k i) (seq 0 M)) (seq 0 N)))) i j
  = Some (k i j).
Proof.
  intros Hi Hj. unfold entry. simpl.
  destruct (Nat.ltb_spec j M); [|lia].
  rewrite (nth_error_concat_rows M).
  - rewrite nth_indep with (d' := map (k O) (seq 0 M))
      by (rewrite length_map, length_seq; lia).
    rewrite (map_nth (fun i => map (k i) (seq 0 M))), seq_nth by lia.
    rewrite nth_error_map, nth_error_seq.
    destruct (Nat.ltb_spec j M); [reflexivity|lia].
  - apply Forall_forall. intros r Hr. apply in_map_iff in Hr.
    destruct Hr as [i' [<- _]]. now rewrite length_map, length_seq.
  - rewrite length_map, length_seq. lia.
  - lia.
Qed.

(** X8. With Y omitted and a kernel that is symmetric on the rows of X, the
    matrix returned is square and symmetric, with kernel(X[i], X[i]) on the
    diagonal. *)
Theorem gram_matrix_symmetric {float} (kernel : kernel_fn float)
    (X : ndarray float) (N : nat) (sx : list nat) (k : nat -> nat -> float) :
  shape X = N :: sx ->
  (forall i j, (i < N)%nat -> (j < N)%nat ->
     kernel (row X i) (row X j) = Ok (k i j)) ->
  (forall i j, (i < N)%nat -> (j < N)%nat -> k i j = k j i) ->
  exists K,
    call kernel X None = Ok K /\ shape K = [N; N] /\
    (forall i j, (i < N)%nat -> (j < N)%nat -> entry K i j = entry K j i) /\
    (forall i, (i < N)%nat -> entry K i i = Some (k i i)).
Proof.
  intros HX Hk Hsym. eexists. split.
  - change (call kernel X None) with (call kernel X (Some X)).
    apply (call_value kernel X X N N sx sx k HX HX Hk).
  - split; [reflexivity|]. split.
    + intros i j Hi Hj. rewrite !gram_entry by assumption.
      f_equal. now apply Hsym.
    + intros i Hi. now apply gram_entry.
Qed.

Lemma gram_matrix_symmetric_witness :
  exists K,
    call first_feature_product X_2feat None = Ok K /\
    shape K = [2; 2]%nat /\
    (forall i j, (i < 2)%nat -> (j < 2)%nat -> entry K i j = entry K j i).
Proof.
  destruct (gram_matrix_symmetric first_feature_product X_2feat 2 [2]%nat
              (fun i j => (nth i [1; 3] 0 * nth j [1; 3] 0)%Z))
    as [K [H1 [H2 [H3 _]]]].
  - reflexivity.
  - intros i j Hi Hj.
    destruct i as [|[|i]]; [| |lia]; (destruct j as [|[|j]]; [| |lia]);
      reflexivity.
  - intros i j _ _. apply Z.mul_comm.
  - exists K. split; [exact H1|]. split; [exact H2|exact H3].
Defined.

Lemma mapM_first_raise {A B} (f : A -> result B) (l1 l2 : list A) (a : A) e :
  (forall x, In x l1 -> exists v, f x = Ok v) ->
  f a = Raise e ->
  mapM f (l1 ++ a :: l2) = Raise e.
Proof.
  intros Hok Ha. induction l1 as [|x l1 IH]; simpl.
  - now rewrite Ha.
  - destruct (Hok x (or_introl eq_refl)) as [v Hv]. rewrite Hv. simpl.
    rewrite IH; [reflexivity|]. intros z Hz. apply Hok. now right.
Qed.

Lemma mapM_ok_exists {A B} (f : A -> result B) (l : list A) :
  (forall x, In x l -> exists v, f x = Ok v) -> exists vs, mapM f l = Ok vs.
Proof.
  induction l as [|x l IH]; intros Hok; [now exists []|].
  destruct (Hok x (or_introl eq_refl)) as [v Hv].
  destruct IH as [vs Hvs]; [intros z Hz; apply Hok; now right|].
  exists (v :: vs). simpl. now rewrite Hv, Hvs.
Qed.

Lemma seq_split (i N : nat) :
  (i < N)%nat -> seq 0 N = seq 0 i ++ i :: seq (S i) (N - S i).
Proof.
  intros Hi. replace N with (i + S (N - S i))%nat at 1 by lia.
  now rewrite seq_app.
Qed.

(** X9. The loops run row by row; the first kernel call that raises, in that
    order, ends the whole call with its exception. *)
Theorem first_failure_decides {float} (kernel : kernel_fn float)
    (X Y : ndarray float) (N M i j : nat) (sx sy : list nat) (e : exn) :
  shape X = N :: sx -> shape Y = M :: sy ->
  (i < N)%nat -> (j < M)%nat ->
  (forall i' j', (i' < N)%nat -> (j' < M)%nat ->
     (i' < i \/ (i' = i /\ j' < j))%nat ->
     exists v, kernel (row X i') (row Y j') = Ok v) ->
  kernel (row X i) (row Y j) = Raise e ->
  call kernel X (Some Y) = Raise e.
Proof.
  intros HX HY Hi Hj Hbefore Hraise.
  unfold call, shape0, iterate. rewrite HX, HY. cbn [bind].
  rewrite mapM_map, (seq_split i N Hi).
  rewrite mapM_first_raise with (e := e); [reflexivity| |].
  - intros i' Hi'. apply in_seq in Hi'. cbn [bind]. rewrite mapM_map.
    apply mapM_ok_exists. intros j' Hj'. apply in_seq in Hj'.
    apply Hbefore; lia.
  - cbn [bind]. rewrite mapM_map, (seq_split j M Hj).
    apply mapM_first_raise; [|exact Hraise].
    intros j' Hj'. apply in_seq in Hj'. apply Hbefore; lia.
Qed.

Lemma first_failure_decides_witness :
  call (fun x y => if (hd 0 (data x) =? 3)%Z then Raise TypeError
                   else Ok 0%Z)
       X_2feat (Some Y_3feat)
  = Raise TypeError.
Proof.
  apply (first_failure_decides _ X_2feat Y_3feat 2 1 1 0 [2]%nat [3]%nat);
    try reflexivity; try lia.
  intros i' j' Hi' Hj' Hlt.
  destruct i' as [|i']; [|lia]. destruct j' as [|j']; [|lia].
  now exists 0%Z.
Defined.

(** X10. Without rows in X or in Y the kernel is never called and the result is
    the empty matrix, whatever the kernel would do; an array without a
    first axis is an [IndexError] from reading its shape. *)
Theorem empty_and_scalar_inputs {float} (kernel : kernel_fn float)
    (X Y : ndarray float) :
  (forall M sx sy, shape X = O :: sx -> shape Y = M :: sy ->
     call kernel X (Some Y) = Ok (mk_ndarray [O; M] [])) /\
  (forall N sx sy, shape X = N :: sx -> shape Y = O :: sy ->
     exists K, call kernel X (Some Y) = Ok K /\ shape K = [N; O] /\ data K = []) /\
  (shape X = [] -> call kernel X (Some Y) = Raise IndexError) /\
  (forall N sx, shape X = N :: sx -> shape Y = [] ->
     call kernel X (Some Y) = Raise IndexError).
Proof.
  unfold call, shape0, iterate. repeat split.
  - intros M sx sy HX HY. rewrite HX, HY. reflexivity.
  - intros N sx sy HX HY. rewrite HX, HY. cbn [bind seq map mapM].
    rewrite mapM_map.
    rewrite mapM_all_ok with (g := fun _ : nat => @nil float);
      [|reflexivity].
    cbn [bind]. eexists. split; [reflexivity|]. split; [reflexivity|].
    simpl. induction (seq 0 N) as [|a l IH]; [reflexivity|exact IH].
  - intros HX. rewrite HX. reflexivity.
  - intros N sx HX HY. rewrite HX, HY. reflexivity.
Qed.

Lemma empty_and_scalar_inputs_witness :
  call first_feature_product (mk_ndarray [0; 2]%nat []) (Some Y_3feat)
    = Ok (mk_ndarray [0; 1]%nat []) /\
  call first_feature_product (mk_ndarray [] [7%Z]) (Some Y_3feat)
    = Raise IndexError.
Proof.
  destruct (empty_and_scalar_inputs first_feature_product
              (mk_ndarray [0; 2]%nat []) Y_3feat) as [H1 _].
  destruct (empty_and_scalar_inputs first_feature_product
              (mk_ndarray [] [7%Z]) Y_3feat) as [_ [_ [H3 _]]].
  split; [apply (H1 1%nat [2]%nat [3]%nat); reflexivity|].
  apply H3. reflexivity.
Defined.

End VectorizeMore.

(** ** The feature maps *)

Module FeatureMapFacts.
Import Py PyFacts Entanglement EntanglementFacts EntanglementMore FeatureMaps.
Open Scope Z_scope.

Lemma extend_extend c gs1 gs2 :
  extend (extend c gs1) gs2 = extend c (gs1 ++ gs2).
Proof. unfold extend. simpl. now rewrite app_assoc. Qed.

Lemma extend_nil c : extend c [] = c.
Proof. destruct c. unfold extend. simpl. now rewrite app_nil_r. Qed.

Lemma append_ok g c :
  gate_ok (num_qubits c) g = true -> append g c = Done (extend c [g]).
Proof. intros H. unfold append. now rewrite H. Qed.

(** A loop whose every pass appends the instructions [g a]. *)
Lemma for_each_extend {A} (n : Z) (g : A -> list gate)
    (body : A -> circuit -> built circuit) (l : list A) :
  (forall a c, In a l -> num_qubits c = n -> body a c = Done (extend c (g a))) ->
  forall c, num_qubits c = n ->
  for_each l body c = Done (extend c (flat_map g l)).
Proof.
  induction l as [|a l IH]; intros Hbody c Hc.
  - simpl. now rewrite extend_nil.
  - cbn [for_each flat_map]. rewrite Hbody by (assumption || now left).
    cbn [and_then]. rewrite IH.
    + now rewrite extend_extend.
    + intros a' c' Ha'. apply Hbody. now right.
    + exact Hc.
Qed.

Lemma flat_map_singleton {A B} (f : A -> B) (l : list A) :
  flat_map (fun a => [f a]) l = map f l.
Proof. induction l as [|a l IH]; simpl; [reflexivity|now rewrite IH]. Qed.

Lemma in_range_list n i : In i (range n) <-> 0 <= i < n.
Proof. rewrite range_indices. apply in_indices. Qed.

Lemma param_at_ok len i : 0 <= i < len -> param_at len i = Done (Param i).
Proof.
  intros Hi. unfold param_at.
  rewrite (getitem_in_range _ i (Param 0)).
  - rewrite range_indices. unfold indices. rewrite map_map.
    rewrite nth_map_seq by lia. simpl. f_equal. f_equal. lia.
  - rewrite length_map, range_indices, length_indices. lia.
Qed.

Lemma qubit_ok_in_range n q : 0 <= q < n -> qubit_ok n q = true.
Proof.
  intros Hq. unfold qubit_ok.
  destruct (Z.leb_spec (- n) q); [|lia]. destruct (Z.ltb_spec q n); [|lia].
  reflexivity.
Qed.

Lemma pair_ok n p :
  in_range n p -> distinct p ->
  qubit_ok n (fst p) && qubit_ok n (snd p)
  && negb (same_qubit n (fst p) (snd p)) = true.
Proof.
  unfold in_range, distinct. intros [H1 H2] Hd.
  rewrite !qubit_ok_in_range by assumption. unfold same_qubit.
  rewrite !Z.mod_small by assumption.
  destruct (Z.eqb_spec (fst p) (snd p)); [contradiction|reflexivity].
Qed.

Lemma range_first reps :
  1 <= reps -> exists rest, range reps = 0 :: rest.
Proof.
  intros H. rewrite range_indices. unfold indices.
  destruct (Z.to_nat reps) as [|k] eqn:E; [lia|].
  simpl. eexists. reflexivity.
Qed.

Lemma range_empty reps : reps <= 0 -> range reps = [].
Proof.
  intros H. rewrite range_indices. unfold indices.
  now replace (Z.to_nat reps) with O by lia.
Qed.

Lemma h_all_ok n c :
  1 <= n -> num_qubits c = n ->
  h_all n c = Done (extend c (map H (range n))).
Proof.
  intros Hn Hc. unfold h_all.
  destruct (range_first n Hn) as [rest Hrange].
  rewrite Hrange at 1. rewrite <- Hrange.
  rewrite (for_each_extend n (fun q => [H q])); [|  |exact Hc].
  - now rewrite flat_map_singleton.
  - intros q c' Hq Hc'. apply in_range_list in Hq.
    apply append_ok. rewrite Hc'. simpl. now apply qubit_ok_in_range.
Qed.

(** A loop over the qubits that appends one single-qubit instruction with
    the angle built from the parameter of index [idx i]. *)
Lemma rotation_loop_ok n len (idx : Z -> Z) (mk : angle -> Z -> gate) c :
  num_qubits c = n ->
  (forall a q, gate_ok n (mk a q) = qubit_ok n q) ->
  (forall i, 0 <= i < n -> 0 <= idx i < len) ->
  for_each (range n) (fun i feature_map =>
    p <~ param_at len (idx i) ;; append (mk p i) feature_map) c
  = Done (extend c (map (fun i => mk (Param (idx i)) i) (range n))).
Proof.
  intros Hc Hmk Hidx.
  rewrite (for_each_extend n (fun i => [mk (Param (idx i)) i])); [| |exact Hc].
  - now rewrite flat_map_singleton.
  - intros i c' Hi Hc'. apply in_range_list in Hi.
    rewrite param_at_ok by now apply Hidx. cbn [and_then].
    apply append_ok. rewrite Hc', Hmk. now apply qubit_ok_in_range.
Qed.

(** A loop over the pairs of a pattern that appends one two-qubit rotation
    with the product of two parameters. *)
Lemma pair_loop_ok n len (idx : Z -> Z) (mk : angle -> angle -> angle)
    pattern c :
  num_qubits c = n ->
  Forall (in_range n) pattern -> Forall distinct pattern ->
  (forall i, 0 <= i < n -> 0 <= idx i < len) ->
  for_each pattern (fun '(i, j) feature_map =>
    pi <~ param_at len (idx i) ;;
    pj <~ param_at len (idx j) ;;
    append (RZZ (mk pi pj) i j) feature_map) c
  = Done (extend c
            (map (fun p => RZZ (mk (Param (idx (fst p))) (Param (idx (snd p))))
                               (fst p) (snd p)) pattern)).
Proof.
  intros Hc Hin Hd Hidx.
  rewrite (for_each_extend n
             (fun p => [RZZ (mk (Param (idx (fst p))) (Param (idx (snd p))))
                            (fst p) (snd p)])); [| |exact Hc].
  - now rewrite flat_map_singleton.
  - intros [i j] c' Hp Hc'.
    rewrite Forall_forall in Hin, Hd.
    pose proof (Hin _ Hp) as Hr. pose proof (Hd _ Hp) as Hdist.
    destruct Hr as [Hi Hj]. simpl in Hi, Hj.
    rewrite !param_at_ok by now apply Hidx. cbn [and_then].
    apply append_ok. rewrite Hc'. cbn [gate_ok].
    now apply (pair_ok n (i, j)).
Qed.

Lemma cx_loop_ok n pattern c :
  num_qubits c = n ->
  Forall (in_range n) pattern -> Forall distinct pattern ->
  for_each pattern (fun '(i, j) feature_map => append (CX i j) feature_map) c
  = Done (extend c (map (fun p => CX (fst p) (snd p)) pattern)).
Proof.
  intros Hc Hin Hd.
  rewrite (for_each_extend n (fun p => [CX (fst p) (snd p)])); [| |exact Hc].
  - now rewrite flat_map_singleton.
  - intros [i j] c' Hp Hc'.
    rewrite Forall_forall in Hin, Hd.
    apply append_ok. rewrite Hc'. cbn [gate_ok].
    apply (pair_ok n (i, j)); [now apply Hin|now apply Hd].
Qed.

(** On two qubits or more every known tag gives pairs that a two-qubit
    gate accepts. *)
Lemma pattern_of_ok n tag rep :
  2 <= n -> In tag topologies ->
  get_entanglement_pattern n tag rep = Ok (pattern_of n tag rep) /\
  Forall (in_range n) (pattern_of n tag rep) /\
  Forall distinct (pattern_of n tag rep).
Proof.
  intros Hn Hin.
  destruct (pattern_value n tag rep) as [l [Hl Hcase]]; [lia|exact Hin|].
  unfold pattern_of. rewrite Hl. split; [reflexivity|].
  destruct (table_valid n rep l) as [H1 H2]; [lia|exact Hcase|].
  split; [exact H1|now apply H2].
Qed.

(** *** Sizes *)

Lemma pattern_of_length n tag rep :
  1 <= n -> In tag topologies ->
  Z.of_nat (List.length (pattern_of n tag rep)) = pattern_size n tag.
Proof.
  intros Hn Hin.
  destruct (fixed_pattern_value n rep) as [H1 [H2 [H3 [H4 H5]]]].
  pose proof (length_table_linear n Hn) as HL.
  unfold pattern_of, pattern_size. simpl in Hin.
  destruct Hin as [<-|[<-|[<-|[<-|[<-|[<-|[]]]]]]]; cbn [String.eqb Ascii.eqb Bool.eqb orb].
  - rewrite H1, <- full_code_table.
    pose proof (length_pairs_of_combinations (range n)) as HC.
    rewrite range_indices, length_indices in HC. rewrite range_indices.
    apply Z.div_unique_exact; [lia|]. nia.
  - now rewrite H2.
  - rewrite H3. unfold table_reverse_linear.
    now rewrite length_rev, length_map.
  - rewrite H4. now rewrite (Permutation_length (pairwise_permutes_linear n)).
  - rewrite H5, length_table_circular by lia. lia.
  - rewrite sca_code_value by lia. unfold sca_rotated_right.
    rewrite length_map, length_rotate_right, length_table_circular by lia. lia.
Qed.

Lemma length_flat_map_const {A B} (f : A -> list B) (l : list A) (k : nat) :
  (forall a, In a l -> List.length (f a) = k) ->
  List.length (flat_map f l) = (List.length l * k)%nat.
Proof.
  induction l as [|a l IH]; intros Hf; [reflexivity|].
  simpl. rewrite length_app, Hf, IH by (try (now left); intros; apply Hf; now right).
  lia.
Qed.

Lemma length_range n : Z.of_nat (List.length (range n)) = Z.max 0 n.
Proof. rewrite range_indices, length_indices. lia. Qed.

(** *** The IQP map *)

Lemma iqp_layer_built n tag rep c :
  2 <= n -> In tag topologies -> num_qubits c = n ->
  (feature_map <~ h_all n c ;;
   feature_map <~
     for_each (range n) (fun i feature_map =>
       p <~ param_at n i ;; append (RZ (Scale 2 p) i) feature_map)
       feature_map ;;
   pattern <~ lift (get_entanglement_pattern n tag rep) ;;
   feature_map <~
     for_each pattern (fun '(i, j) feature_map =>
       pi <~ param_at n i ;;
       pj <~ param_at n j ;;
       append (RZZ (Prod (Scale 2 pi) pj) i j) feature_map) feature_map ;;
   h_all n feature_map)
  = Done (extend c (iqp_layer n (pattern_of n tag rep))).
Proof.
  intros Hn Hin Hc.
  destruct (pattern_of_ok n tag rep Hn Hin) as [Hpat [Hr Hd]].
  rewrite h_all_ok by (lia || exact Hc). cbn [and_then].
  rewrite (rotation_loop_ok n n (fun i => i) (fun a q => RZ (Scale 2 a) q))
    by (reflexivity || (intros; assumption)).
  cbn [and_then]. rewrite Hpat. cbn [lift and_then].
  rewrite (pair_loop_ok n n (fun i => i) (fun a b => Prod (Scale 2 a) b))
    by (reflexivity || assumption || (intros; assumption)).
  cbn [and_then]. rewrite h_all_ok by (lia || assumption).
  rewrite !extend_extend. reflexivity.
Qed.

Lemma iqp_layer_length n pattern :
  0 <= n ->
  Z.of_nat (List.length (iqp_layer n pattern))
  = 3 * n + Z.of_nat (List.length pattern).
Proof.
  intros Hn. unfold iqp_layer.
  rewrite !length_app, !length_map.
  pose proof (length_range n). lia.
Qed.

Lemma iqp_layer_params n pattern :
  Forall (in_range n) pattern ->
  Forall (fun k => 0 <= k < n) (flat_map gate_params (iqp_layer n pattern)).
Proof.
  intros Hr. apply Forall_forall. intros k Hk.
  apply in_flat_map in Hk. destruct Hk as [g [Hg Hk]].
  unfold iqp_layer in Hg. rewrite !in_app_iff, !in_map_iff in Hg.
  destruct Hg as [[q [<- _]]|[[i [<- Hi]]|[[p [<- Hp]]|[q [<- _]]]]];
    simpl in Hk.
  - destruct Hk.
  - destruct Hk as [<-|[]]. now apply in_range_list.
  - rewrite Forall_forall in Hr. destruct (Hr p Hp) as [H1 H2].
    destruct Hk as [<-|[<-|[]]]; assumption.
  - destruct Hk.
Qed.

(** X20. On two features or more and a known entanglement tag the IQP map is
    built without error: [reps] layers in a row, each of them Hadamards on
    all qubits, one RZ(2 x_i) per qubit, one RZZ(2 x_i x_j) per pair of the
    pattern of that repetition, and Hadamards again; 3n + |pattern| gates a
    layer, every gate on valid qubits, only the parameters x_0..x_(n-1). *)
Theorem iqp_feature_map_built (n reps : Z) (tag : string) :
  2 <= n -> In tag topologies ->
  exists c,
    iqp_feature_map n reps tag = Done c /\
    num_qubits c = n /\
    gates c = flat_map (fun rep => iqp_layer n (pattern_of n tag rep))
                       (range reps) /\
    Z.of_nat (List.length (gates c))
      = Z.max 0 reps * (3 * n + pattern_size n tag) /\
    Forall (fun k => 0 <= k < n) (circuit_params c).
Proof.
  intros Hn Hin.
  set (layers := flat_map (fun rep => iqp_layer n (pattern_of n tag rep))
                          (range reps)).
  assert (Hbuild : iqp_feature_map n reps tag = Done (mk_circuit n layers)).
  { unfold iqp_feature_map, QuantumCircuit, ParameterVector.
    destruct (Z.ltb_spec n 0); [lia|]. cbn [and_then].
    rewrite (for_each_extend n
               (fun rep => iqp_layer n (pattern_of n tag rep)));
      [reflexivity| |reflexivity].
    intros rep c _ Hc. now apply iqp_layer_built. }
  exists (mk_circuit n layers). split; [exact Hbuild|].
  split; [reflexivity|]. split; [reflexivity|]. split.
  - cbn [gates]. unfold layers.
    rewrite (length_flat_map_const _ _
               (Z.to_nat (3 * n + pattern_size n tag))).
    + pose proof (length_range reps).
      assert (0 <= pattern_size n tag).
      { rewrite <- (pattern_of_length n tag 0) by (lia || assumption). lia. }
      nia.
    + intros rep _.
      apply Nat2Z.inj. rewrite iqp_layer_length by lia.
      rewrite pattern_of_length by (lia || assumption).
      assert (0 <= pattern_size n tag).
      { rewrite <- (pattern_of_length n tag 0) by (lia || assumption). lia. }
      lia.
  - unfold circuit_params. cbn [gates]. unfold layers.
    apply Forall_forall. intros k Hk.
    apply in_flat_map in Hk. destruct Hk as [g [Hg Hk]].
    apply in_flat_map in Hg. destruct Hg as [rep [_ Hg]].
    destruct (pattern_of_ok n tag rep Hn Hin) as [_ [Hr _]].
    pose proof (iqp_layer_params n _ Hr) as Hp.
    rewrite Forall_forall in Hp. apply Hp.
    apply in_flat_map. now exists g.
Qed.

Lemma iqp_feature_map_built_witness :
  exists c,
    iqp_feature_map 3 2 "linear"%string = Done c /\
    num_qubits c = 3 /\
    Z.of_nat (List.length (gates c))
      = Z.max 0 2 * (3 * 3 + pattern_size 3 "linear"%string).
Proof.
  destruct (iqp_feature_map_built 3 2 "linear"%string)
    as [c [H1 [H2 [_ [H4 _]]]]].
  - lia.
  - simpl. tauto.
  - exists c. split; [exact H1|]. split; [exact H2|exact H4].
Defined.

Example iqp_two_qubits :
  iqp_feature_map 2 1 "linear"%string
  = Done (mk_circuit 2
      [H 0; H 1; RZ (Scale 2 (Param 0)) 0; RZ (Scale 2 (Param 1)) 1;
       RZZ (Prod (Scale 2 (Param 0)) (Param 1)) 0 1; H 0; H 1]).
Proof. reflexivity. Qed.

Lemma rz_loop_any n c :
  num_qubits c = n ->
  for_each (range n) (fun i feature_map =>
    p <~ param_at n i ;; append (RZ (Scale 2 p) i) feature_map) c
  = Done (extend c (map (fun i => RZ (Scale 2 (Param i)) i) (range n))).
Proof.
  intros Hc.
  apply (rotation_loop_ok n n (fun i => i) (fun a q => RZ (Scale 2 a) q));
    [exact Hc|reflexivity|intros; assumption].
Qed.

(** X21. How building the IQP map fails.  The entanglement tag is looked at in
    the first repetition only: an unknown tag is a [ValueError] when there
    is a qubit and a repetition to build, and goes unnoticed when there is
    no repetition.  On no feature at all the first Hadamard layer has no
    qubit to act on, which the circuit refuses before the tag is read.  On
    a single feature the circular and 'sca' tags ask for a two-qubit gate on
    the pair (0,0), which the circuit refuses. *)
Theorem iqp_feature_map_failures (n reps : Z) (tag : string) :
  (1 <= n -> ~ In tag topologies -> 1 <= reps ->
   iqp_feature_map n reps tag = Failed (PyError ValueError)) /\
  (0 <= n -> reps <= 0 ->
   iqp_feature_map n reps tag = Done (mk_circuit n [])) /\
  (n = 0 -> 1 <= reps ->
   iqp_feature_map n reps tag = Failed CircuitError) /\
  (n = 1 -> tag = "circular"%string \/ tag = "sca"%string -> 1 <= reps ->
   iqp_feature_map n reps tag = Failed CircuitError).
Proof.
  split; [|split; [|split]].
  - intros Hn Hno Hreps. unfold iqp_feature_map, QuantumCircuit, ParameterVector.
    destruct (Z.ltb_spec n 0); [lia|]. cbn [and_then].
    destruct (range_first reps Hreps) as [rest ->]. cbn [for_each].
    rewrite h_all_ok by (lia || reflexivity). cbn [and_then].
    rewrite rz_loop_any by reflexivity. cbn [and_then].
    now rewrite unknown_tag_raises by exact Hno.
  - intros Hn Hreps. unfold iqp_feature_map, QuantumCircuit, ParameterVector.
    destruct (Z.ltb_spec n 0); [lia|]. cbn [and_then].
    now rewrite range_empty by exact Hreps.
  - intros -> Hreps. unfold iqp_feature_map, QuantumCircuit, ParameterVector.
    cbn [Z.ltb Z.compare and_then].
    destruct (range_first reps Hreps) as [rest ->]. reflexivity.
  - intros -> Htag Hreps. unfold iqp_feature_map, QuantumCircuit, ParameterVector.
    cbn [Z.ltb Z.compare and_then].
    destruct (range_first reps Hreps) as [rest ->]. cbn [for_each].
    destruct Htag as [-> | ->]; reflexivity.
Qed.

Lemma iqp_feature_map_failures_witness :
  iqp_feature_map 2 1 "ring"%string = Failed (PyError ValueError) /\
  iqp_feature_map 2 0 "ring"%string = Done (mk_circuit 2 []) /\
  iqp_feature_map 0 1 "linear"%string = Failed CircuitError /\
  iqp_feature_map 1 1 "circular"%string = Failed CircuitError.
Proof.
  destruct (iqp_feature_map_failures 2 1 "ring"%string) as [H1 _].
  destruct (iqp_feature_map_failures 2 0 "ring"%string) as [_ [H2 _]].
  destruct (iqp_feature_map_failures 0 1 "linear"%string) as [_ [_ [H3 _]]].
  destruct (iqp_feature_map_failures 1 1 "circular"%string) as [_ [_ [_ H4]]].
  split; [|split; [|split]].
  - apply H1; [lia| |lia]. simpl. intros H.
    repeat (destruct H as [H|H]; [discriminate H|]). exact H.
  - apply H2; lia.
  - apply H3; [reflexivity|lia].
  - apply H4; [reflexivity|now left|lia].
Defined.

(** *** The data re-uploading map *)

Lemma reupload_block_built n reps pattern (rot : angle -> Z -> gate) c :
  2 <= n -> 1 <= reps -> num_qubits c = n ->
  (forall a q, gate_ok n (rot a q) = qubit_ok n q) ->
  Forall (in_range n) pattern -> Forall distinct pattern ->
  (feature_map <~
     for_each (range n) (fun i feature_map =>
       p <~ param_at (n * reps) i ;; append (rot p i) feature_map) c ;;
   feature_map <~
     for_each pattern (fun '(i, j) feature_map =>
       append (CX i j) feature_map) feature_map ;;
   append Barrier feature_map)
  = Done (extend c (reupload_block n pattern rot)).
Proof.
  intros Hn Hreps Hc Hrot Hr Hd.
  rewrite (rotation_loop_ok n (n * reps) (fun i => i) rot)
    by (assumption || (intros; nia)).
  cbn [and_then]. rewrite (cx_loop_ok n) by assumption.
  cbn [and_then]. rewrite append_ok by reflexivity.
  rewrite !extend_extend. reflexivity.
Qed.

Lemma reupload_layer_built n reps tag d c :
  2 <= n -> 1 <= reps -> In tag topologies -> num_qubits c = n ->
  (pattern <~ lift (get_entanglement_pattern n tag d) ;;
   for_each [RX; RY; RZ] (fun gate feature_map =>
     feature_map <~
       for_each (range n) (fun i feature_map =>
         p <~ param_at (n * reps) i ;;
         append (gate p i) feature_map) feature_map ;;
     feature_map <~
       for_each pattern (fun '(i, j) feature_map =>
         append (CX i j) feature_map) feature_map ;;
     append Barrier feature_map) c)
  = Done (extend c (reupload_layer n (pattern_of n tag d))).
Proof.
  intros Hn Hreps Hin Hc.
  destruct (pattern_of_ok n tag d Hn Hin) as [Hpat [Hr Hd]].
  rewrite Hpat. cbn [lift and_then for_each].
  rewrite (reupload_block_built n reps _ RX) by (assumption || reflexivity).
  cbn [and_then].
  rewrite (reupload_block_built n reps _ RY) by (assumption || reflexivity).
  cbn [and_then].
  rewrite (reupload_block_built n reps _ RZ) by (assumption || reflexivity).
  rewrite !extend_extend. reflexivity.
Qed.

Lemma reupload_layer_length n pattern :
  0 <= n ->
  Z.of_nat (List.length (reupload_layer n pattern))
  = 3 * (n + Z.of_nat (List.length pattern) + 1).
Proof.
  intros Hn. unfold reupload_layer, reupload_block.
  rewrite !length_app, !length_map. cbn [List.length].
  pose proof (length_range n). lia.
Qed.

Lemma reupload_layer_params n pattern :
  Forall (fun k => 0 <= k < n)
         (flat_map gate_params (reupload_layer n pattern)).
Proof.
  apply Forall_forall. intros k Hk.
  apply in_flat_map in Hk. destruct Hk as [g [Hg Hk]].
  unfold reupload_layer, reupload_block in Hg.
  rewrite !in_app_iff, !in_map_iff in Hg.
  repeat match type of Hg with
  | _ \/ _ => destruct Hg as [Hg|Hg]
  end;
  try (destruct Hg as [x [<- Hx]]; simpl in Hk;
       try (destruct Hk as [<-|[]]; now apply in_range_list);
       now destruct Hk);
  try (destruct Hg as [<-|[]]; now destruct Hk).
Qed.

(** X24. On two features or more and a known entanglement tag the data
    re-uploading map is built without error: Hadamards on all qubits, then
    per repetition three blocks (RX, RY, RZ on every qubit, a CX per pair of
    the pattern, a barrier).  Qubit i is always rotated by parameter x_i:
    of the n*reps parameters the function declares only the first n are
    ever used, the same in every repetition.  (The number of repetitions
    is not negative: a parameter vector of negative length is refused.) *)
Theorem data_reuploading_built (n reps : Z) (tag : string) :
  2 <= n -> 0 <= reps -> In tag topologies ->
  exists c,
    data_reuploading_feature_map n reps tag = Done c /\
    num_qubits c = n /\
    gates c = map H (range n)
              ++ flat_map (fun d => reupload_layer n (pattern_of n tag d))
                          (range reps) /\
    Z.of_nat (List.length (gates c))
      = n + Z.max 0 reps * (3 * (n + pattern_size n tag + 1)) /\
    Forall (fun k => 0 <= k < n) (circuit_params c).
Proof.
  intros Hn Hreps Hin.
  set (layers := flat_map (fun d => reupload_layer n (pattern_of n tag d))
                          (range reps)).
  assert (Hbuild : data_reuploading_feature_map n reps tag
                   = Done (mk_circuit n (map H (range n) ++ layers))).
  { unfold data_reuploading_feature_map, QuantumCircuit, ParameterVector.
    destruct (Z.ltb_spec n 0); [lia|]. cbn [and_then].
    destruct (Z.ltb_spec (n * reps) 0); [nia|]. cbn [and_then].
    rewrite h_all_ok by (lia || reflexivity). cbn [and_then].
    destruct (Z.le_gt_cases reps 0) as [Hle|Hgt].
    - unfold layers. rewrite range_empty by exact Hle. cbn [for_each flat_map].
      unfold extend. simpl. now rewrite app_nil_r.
    - rewrite (for_each_extend n
                 (fun d => reupload_layer n (pattern_of n tag d)));
        [reflexivity| |reflexivity].
      intros d c _ Hc. apply reupload_layer_built; (assumption || lia). }
  exists (mk_circuit n (map H (range n) ++ layers)).
  split; [exact Hbuild|]. split; [reflexivity|]. split; [reflexivity|].
  assert (Hsize : 0 <= pattern_size n tag).
  { rewrite <- (pattern_of_length n tag 0) by (lia || assumption). lia. }
  split.
  - cbn [gates]. rewrite length_app, length_map. unfold layers.
    rewrite (length_flat_map_const _ _
               (Z.to_nat (3 * (n + pattern_size n tag + 1)))).
    + pose proof (length_range reps). pose proof (length_range n). nia.
    + intros d _. apply Nat2Z.inj. rewrite reupload_layer_length by lia.
      rewrite pattern_of_length by (lia || assumption). lia.
  - unfold circuit_params. cbn [gates]. rewrite flat_map_app.
    apply Forall_app. split.
    + apply Forall_forall. intros k Hk. apply in_flat_map in Hk.
      destruct Hk as [g [Hg Hk]]. apply in_map_iff in Hg.
      destruct Hg as [q [<- _]]. destruct Hk.
    + unfold layers. apply Forall_forall. intros k Hk.
      apply in_flat_map in Hk. destruct Hk as [g [Hg Hk]].
      apply in_flat_map in Hg. destruct Hg as [d [_ Hg]].
      pose proof (reupload_layer_params n (pattern_of n tag d)) as Hp.
      rewrite Forall_forall in Hp. apply Hp.
      apply in_flat_map. now exists g.
Qed.

Lemma data_reuploading_built_witness :
  exists c,
    data_reuploading_feature_map 2 3 "linear"%string = Done c /\
    num_qubits c = 2 /\
    Forall (fun k => 0 <= k < 2) (circuit_params c).
Proof.
  destruct (data_reuploading_built 2 3 "linear"%string)
    as [c [H1 [H2 [_ [_ H5]]]]].
  - lia.
  - lia.
  - simpl. tauto.
  - exists c. split; [exact H1|]. split; [exact H2|exact H5].
Defined.

(** *** The polynomial map *)

Lemma upfrom_app a m k :
  upfrom a (m + k) = upfrom a m ++ upfrom (a + Z.of_nat m) k.
Proof.
  revert a. induction m as [|m IH]; intros a.
  - simpl. now rewrite Z.add_0_r.
  - cbn [Nat.add]. rewrite !upfrom_S, IH. simpl. do 3 f_equal. lia.
Qed.

Lemma qubit_blocks {B} (f : Z -> Z -> B) (q : Z) (blocks : nat) :
  0 <= q ->
  flat_map (fun k => map (fun i => f k (k * q + i)) (range q))
           (upfrom 0 blocks)
  = map (fun t => f (t / q) t) (upfrom 0 (blocks * Z.to_nat q)).
Proof.
  intros Hq. induction blocks as [|b IH]; [reflexivity|].
  replace (S b) with (b + 1)%nat by lia.
  rewrite upfrom_app, flat_map_app, IH.
  rewrite Nat.mul_add_distr_r, upfrom_app, map_app. f_equal.
  cbn [upfrom seq map flat_map]. rewrite app_nil_r, Nat.mul_1_l.
  rewrite range_indices, <- upfrom_indices. unfold upfrom.
  rewrite !map_map. apply map_ext_in. intros i Hi. apply in_seq in Hi.
  f_equal; [|nia].
  apply Z.div_unique with (r := Z.of_nat i); [left; lia|nia].
Qed.

(** X22. The polynomial map puts one RY on every one of its
    num_features * qubits_per_feature qubits, in the order of the qubits,
    and qubit t is rotated by the parameter of feature
    t // qubits_per_feature: every feature drives a block of
    qubits_per_feature neighbouring qubits. *)
Theorem polynomial_feature_map_layout (num_features qubits_per_feature : Z) :
  0 <= num_features -> 0 <= qubits_per_feature ->
  polynomial_feature_map num_features qubits_per_feature
  = Done (mk_circuit (num_features * qubits_per_feature)
            (map (fun t => RY (Param (t / qubits_per_feature)) t)
                 (range (num_features * qubits_per_feature)))).
Proof.
  intros HF Hq. unfold polynomial_feature_map, QuantumCircuit, ParameterVector.
  destruct (Z.ltb_spec (num_features * qubits_per_feature) 0); [nia|].
  cbn [and_then].
  destruct (Z.ltb_spec num_features 0); [lia|]. cbn [and_then].
  rewrite (for_each_extend (num_features * qubits_per_feature)
             (fun k => map (fun i => RY (Param k) (k * qubits_per_feature + i))
                           (range qubits_per_feature)));
    [| |reflexivity].
  - unfold extend. cbn [num_qubits gates app]. do 2 f_equal.
    rewrite (range_indices num_features), <- upfrom_indices.
    rewrite (qubit_blocks (fun k t => RY (Param k) t)) by exact Hq.
    rewrite range_indices, <- upfrom_indices. do 2 f_equal. nia.
  - intros k c Hk Hc. apply in_range_list in Hk.
    rewrite (for_each_extend (num_features * qubits_per_feature)
               (fun i => [RY (Param k) (k * qubits_per_feature + i)]));
      [| |exact Hc].
    + now rewrite flat_map_singleton.
    + intros i c' Hi Hc'. apply in_range_list in Hi.
      rewrite param_at_ok by exact Hk. cbn [and_then].
      apply append_ok. rewrite Hc'. cbn [gate_ok].
      apply qubit_ok_in_range. nia.
Qed.

Lemma polynomial_feature_map_layout_witness :
  polynomial_feature_map 2 2
  = Done (mk_circuit (2 * 2)
            (map (fun t => RY (Param (t / 2)) t) (range (2 * 2)))).
Proof. apply (polynomial_feature_map_layout 2 2); lia. Defined.

Example polynomial_two_by_two :
  polynomial_feature_map 2 2
  = Done (mk_circuit 4 [RY (Param 0) 0; RY (Param 0) 1;
                        RY (Param 1) 2; RY (Param 1) 3]).
Proof. reflexivity. Qed.

(** *** The QAOA-inspired map *)

Lemma qaoa_layer_built n tag rep c :
  2 <= n -> In tag topologies -> num_qubits c = n ->
  (feature_map <~
     for_each (range n) (fun i feature_map =>
       p <~ param_at (n * 2) i ;;
       append (RX (Scale 2 p) i) feature_map) c ;;
   feature_map <~
     for_each (range n) (fun i feature_map =>
       p <~ param_at (n * 2) (n + i) ;;
       append (RZ (Scale 2 p) i) feature_map) feature_map ;;
   pattern <~ lift (get_entanglement_pattern n tag rep) ;;
   feature_map <~
     for_each pattern (fun '(i, j) feature_map =>
       pi <~ param_at (n * 2) i ;;
       pj <~ param_at (n * 2) j ;;
       append (RZZ (Prod pi pj) i j) feature_map) feature_map ;;
   for_each pattern (fun '(i, j) feature_map =>
     pi <~ param_at (n * 2) (n + i) ;;
     pj <~ param_at (n * 2) (n + j) ;;
     append (RZZ (Prod pi pj) i j) feature_map) feature_map)
  = Done (extend c (qaoa_layer n (pattern_of n tag rep))).
Proof.
  intros Hn Hin Hc.
  destruct (pattern_of_ok n tag rep Hn Hin) as [Hpat [Hr Hd]].
  rewrite (rotation_loop_ok n (n * 2) (fun i => i)
             (fun a q => RX (Scale 2 a) q))
    by (assumption || reflexivity || (intros; lia)).
  cbn [and_then].
  rewrite (rotation_loop_ok n (n * 2) (fun i => n + i)
             (fun a q => RZ (Scale 2 a) q))
    by (assumption || reflexivity || (intros; lia)).
  cbn [and_then]. rewrite Hpat. cbn [lift and_then].
  rewrite (pair_loop_ok n (n * 2) (fun i => i) Prod)
    by (assumption || (intros; lia)).
  cbn [and_then].
  rewrite (pair_loop_ok n (n * 2) (fun i => n + i) Prod)
    by (assumption || (intros; lia)).
  rewrite !extend_extend. reflexivity.
Qed.

Lemma qaoa_layer_length n pattern :
  0 <= n ->
  Z.of_nat (List.length (qaoa_layer n pattern))
  = 2 * n + 2 * Z.of_nat (List.length pattern).
Proof.
  intros Hn. unfold qaoa_layer.
  rewrite !length_app, !length_map. pose proof (length_range n). lia.
Qed.

Lemma qaoa_layer_params n pattern :
  Forall (in_range n) pattern ->
  Forall (fun k => 0 <= k < 2 * n)
         (flat_map gate_params (qaoa_layer n pattern)).
Proof.
  intros Hr. rewrite Forall_forall in Hr.
  apply Forall_forall. intros k Hk.
  apply in_flat_map in Hk. destruct Hk as [g [Hg Hk]].
  unfold qaoa_layer in Hg. rewrite !in_app_iff, !in_map_iff in Hg.
  destruct Hg as [[i [<- Hi]]|[[i [<- Hi]]|[[p [<- Hp]]|[p [<- Hp]]]]];
    simpl in Hk.
  - apply in_range_list in Hi. destruct Hk as [<-|[]]. lia.
  - apply in_range_list in Hi. destruct Hk as [<-|[]]. lia.
  - destruct (Hr p Hp) as [H1 H2]. destruct Hk as [<-|[<-|[]]]; lia.
  - destruct (Hr p Hp) as [H1 H2]. destruct Hk as [<-|[<-|[]]]; lia.
Qed.

(** X23. On four features or more and a known entanglement tag the
    QAOA-inspired map is built without error on num_features // 2 qubits:
    Hadamards, then per repetition RX(2 x_i) and RZ(2 x_(q+i)) on every
    qubit and two RZZ per pair of the pattern.  It uses the parameters
    below 2 * (num_features // 2) only, so the last of an odd number of
    features never enters the circuit. *)
Theorem qaoa_feature_map_built (num_features reps : Z) (tag : string) :
  4 <= num_features -> In tag topologies ->
  let q := num_features / 2 in
  exists c,
    qaoa_inspired_feature_map num_features reps tag = Done c /\
    num_qubits c = q /\
    gates c = map H (range q)
              ++ flat_map (fun rep => qaoa_layer q (pattern_of q tag rep))
                          (range reps) /\
    Z.of_nat (List.length (gates c))
      = q + Z.max 0 reps * (2 * q + 2 * pattern_size q tag) /\
    Forall (fun k => 0 <= k < 2 * q) (circuit_params c) /\
    (Z.odd num_features = true -> ~ In (num_features - 1) (circuit_params c)).
Proof.
  intros HF Hin q.
  assert (Hq : 2 <= q) by (unfold q; apply Z.div_le_lower_bound; lia).
  set (layers := flat_map (fun rep => qaoa_layer q (pattern_of q tag rep))
                          (range reps)).
  assert (Hbuild : qaoa_inspired_feature_map num_features reps tag
                   = Done (mk_circuit q (map H (range q) ++ layers))).
  { unfold qaoa_inspired_feature_map, QuantumCircuit, ParameterVector. fold q.
    destruct (Z.ltb_spec q 0); [lia|]. cbn [and_then].
    destruct (Z.ltb_spec (q * 2) 0); [lia|]. cbn [and_then].
    rewrite h_all_ok by (lia || reflexivity). cbn [and_then].
    rewrite (for_each_extend q
               (fun rep => qaoa_layer q (pattern_of q tag rep)));
      [reflexivity| |reflexivity].
    intros rep c _ Hc. now apply qaoa_layer_built. }
  assert (Hparams : Forall (fun k => 0 <= k < 2 * q)
                      (circuit_params (mk_circuit q (map H (range q) ++ layers)))).
  { unfold circuit_params. cbn [gates]. rewrite flat_map_app.
    apply Forall_app. split.
    - apply Forall_forall. intros k Hk. apply in_flat_map in Hk.
      destruct Hk as [g [Hg Hk]]. apply in_map_iff in Hg.
      destruct Hg as [x [<- _]]. destruct Hk.
    - unfold layers. apply Forall_forall. intros k Hk.
      apply in_flat_map in Hk. destruct Hk as [g [Hg Hk]].
      apply in_flat_map in Hg. destruct Hg as [rep [_ Hg]].
      destruct (pattern_of_ok q tag rep Hq Hin) as [_ [Hr _]].
      pose proof (qaoa_layer_params q _ Hr) as Hp.
      rewrite Forall_forall in Hp. apply Hp.
      apply in_flat_map. now exists g. }
  exists (mk_circuit q (map H (range q) ++ layers)).
  split; [exact Hbuild|]. split; [reflexivity|]. split; [reflexivity|].
  assert (Hsize : 0 <= pattern_size q tag).
  { rewrite <- (pattern_of_length q tag 0) by (lia || assumption). lia. }
  split; [|split; [exact Hparams|]].
  - cbn [gates]. rewrite length_app, length_map. unfold layers.
    rewrite (length_flat_map_const _ _
               (Z.to_nat (2 * q + 2 * pattern_size q tag))).
    + pose proof (length_range reps). pose proof (length_range q). nia.
    + intros rep _. apply Nat2Z.inj. rewrite qaoa_layer_length by lia.
      rewrite pattern_of_length by (lia || assumption). lia.
  - intros Hodd Hk. rewrite Forall_forall in Hparams.
    specialize (Hparams _ Hk).
    rewrite (Z.div_mod num_features 2) in Hparams at 2 by lia.
    rewrite Zmod_odd, Hodd in Hparams. fold q in Hparams. lia.
Qed.

Lemma qaoa_feature_map_built_witness :
  exists c,
    qaoa_inspired_feature_map 5 2 "linear"%string = Done c /\
    num_qubits c = 5 / 2 /\
    ~ In (5 - 1) (circuit_params c).
Proof.
  destruct (qaoa_feature_map_built 5 2 "linear"%string)
    as [c [H1 [H2 [_ [_ [_ H6]]]]]].
  - lia.
  - simpl. tauto.
  - exists c. split; [exact H1|]. split; [exact H2|].
    apply H6. reflexivity.
Defined.

End FeatureMapFacts.
